(** * Static search tree (go/main.go): a shallow embedding and its properties

    The Go program precomputes, for every prefix of every word, the list of
    words that start with that prefix, and answers prefix queries by one map
    lookup.  This file embeds [build], [mergeDeduplicate], [Search],
    [SearchWithLimit], [GetAllPrefixes] and [Size] of [go/main.go], together
    with the parts of Go's standard library they call ([sort.Strings],
    [strings.HasPrefix], [strings.ToLower], [strings.ToUpper], and the UTF-8
    coding underneath), and proves properties of the built index.

    Data model.  A Go [string] is a sequence of bytes: it is a Rocq [string]
    (a list of 8-bit [ascii]).  A [[]string] is a [list string].  The field
    [tree map[string][]string] is a [gmap string (list string)].  A [rune] and
    an [int] are integers of [Z]. *)

From Stdlib Require Import ZArith Ascii.
From stdpp Require Import gmap strings sorting.

Local Open Scope Z_scope.

(** ** Bytes and slices of a string *)

(** [s[i]] as a number, and the conversion [byte(x)], which keeps the low
    eight bits. *)
Definition byte_of (c : ascii) : Z := Z.of_N (Ascii.N_of_ascii c).

Definition to_byte (x : Z) : ascii := Ascii.ascii_of_N (Z.to_N (x mod 256)).

(** [s[:i]], for [i <= len(s)] (the only way [build] uses it). *)
Fixpoint slice_to (s : string) (i : nat) {struct i} : string :=
  match i, s with
  | S i', String c s' => String c (slice_to s' i')
  | _, _ => ""
  end.

(** [s[i:]]. *)
Fixpoint slice_from (s : string) (i : nat) {struct i} : string :=
  match i, s with
  | S i', String _ s' => slice_from s' i'
  | _, _ => s
  end.

(** [strings.HasPrefix(s, prefix)]. *)
Definition HasPrefix (s prefix : string) : bool := String.prefix prefix s.

(** [sort.Strings]: the ascending rearrangement of the slice for Go's [<] on
    strings, the bytewise lexicographic order [String.le].  That order is
    total and antisymmetric, so the result does not depend on the sorting
    algorithm; merge sort computes it here. *)
Definition sort_Strings (a : list string) : list string :=
  merge_sort String.le a.

(** ** UTF-8 ([unicode/utf8]) *)

Definition RuneError : Z := 0xFFFD.
Definition MaxRune : Z := 0x10FFFF.
Definition RuneSelf : Z := 0x80.

(** The table [first] with [acceptRanges]: for a leading byte of a multi-byte
    sequence, the length of the sequence and the range its second byte must
    lie in; [None] for a byte that starts no sequence. *)
Definition first (b : Z) : option (nat * Z * Z) :=
  if b <? 0xC2 then None
  else if b <=? 0xDF then Some (2%nat, 0x80, 0xBF)
  else if b =? 0xE0 then Some (3%nat, 0xA0, 0xBF)
  else if b <=? 0xEC then Some (3%nat, 0x80, 0xBF)
  else if b =? 0xED then Some (3%nat, 0x80, 0x9F)
  else if b <=? 0xEF then Some (3%nat, 0x80, 0xBF)
  else if b =? 0xF0 then Some (4%nat, 0x90, 0xBF)
  else if b <=? 0xF3 then Some (4%nat, 0x80, 0xBF)
  else if b =? 0xF4 then Some (4%nat, 0x80, 0x8F)
  else None.

(** A continuation byte outside [locb, hicb]. *)
Definition not_cont (b : Z) : bool := (b <? 0x80) || (0xBF <? b).

(** [utf8.DecodeRuneInString]: the first rune of [s] and its width in bytes.
    A byte that starts no well-formed sequence decodes as [(RuneError, 1)]. *)
Definition DecodeRuneInString (s : string) : Z * nat :=
  match s with
  | "" => (RuneError, 0%nat)
  | String c0 t0 =>
    let s0 := byte_of c0 in
    if s0 <? RuneSelf then (s0, 1%nat)
    else
      match first s0, t0 with
      | Some (sz, lo, hi), String c1 t1 =>
        let s1 := byte_of c1 in
        if (s1 <? lo) || (hi <? s1) then (RuneError, 1%nat)
        else if (sz <=? 2)%nat then
          (Z.lor (Z.shiftl (Z.land s0 0x1F) 6) (Z.land s1 0x3F), 2%nat)
        else
          match t1 with
          | String c2 t2 =>
            let s2 := byte_of c2 in
            if not_cont s2 then (RuneError, 1%nat)
            else if (sz <=? 3)%nat then
              (Z.lor (Z.lor (Z.shiftl (Z.land s0 0x0F) 12)
                            (Z.shiftl (Z.land s1 0x3F) 6))
                     (Z.land s2 0x3F), 3%nat)
            else
              match t2 with
              | String c3 _ =>
                let s3 := byte_of c3 in
                if not_cont s3 then (RuneError, 1%nat)
                else
                  (Z.lor (Z.lor (Z.lor (Z.shiftl (Z.land s0 0x07) 18)
                                       (Z.shiftl (Z.land s1 0x3F) 12))
                                (Z.shiftl (Z.land s2 0x3F) 6))
                         (Z.land s3 0x3F), 4%nat)
              | "" => (RuneError, 1%nat)
              end
          | "" => (RuneError, 1%nat)
          end
      | _, _ => (RuneError, 1%nat)
      end
  end.

(** The three- and four-byte forms of [utf8.AppendRune]. *)
Definition encode3 (r : Z) : string :=
  String (to_byte (Z.lor 0xE0 (Z.shiftr r 12)))
 (String (to_byte (Z.lor 0x80 (Z.land (Z.shiftr r 6) 0x3F)))
 (String (to_byte (Z.lor 0x80 (Z.land r 0x3F))) "")).

Definition encode4 (r : Z) : string :=
  String (to_byte (Z.lor 0xF0 (Z.shiftr r 18)))
 (String (to_byte (Z.lor 0x80 (Z.land (Z.shiftr r 12) 0x3F)))
 (String (to_byte (Z.lor 0x80 (Z.land (Z.shiftr r 6) 0x3F)))
 (String (to_byte (Z.lor 0x80 (Z.land r 0x3F))) ""))).

(** [utf8.AppendRune] to an empty buffer: the UTF-8 encoding of [r]; a rune
    out of range or a surrogate half is written as [RuneError].  The switch
    is on [uint32(r)]. *)
Definition EncodeRune (r : Z) : string :=
  let i := r mod 2 ^ 32 in
  if i <=? 0x7F then String (to_byte r) ""
  else if i <=? 0x7FF then
    String (to_byte (Z.lor 0xC0 (Z.shiftr r 6)))
   (String (to_byte (Z.lor 0x80 (Z.land r 0x3F))) "")
  else if (MaxRune <? i) || ((0xD800 <=? i) && (i <=? 0xDFFF)) then
    encode3 RuneError
  else if i <=? 0xFFFF then encode3 r
  else encode4 r.

(** [for _, c := range s]: the runes of [s] in order, each invalid byte read
    as one [RuneError].  [skip] counts the bytes of the current rune still to
    step over. *)
Fixpoint range_from (skip : nat) (s : string) : list Z :=
  match s with
  | "" => []
  | String _ t =>
    match skip with
    | S k => range_from k t
    | O => (DecodeRuneInString s).1 :: range_from (pred (DecodeRuneInString s).2) t
    end
  end.

Definition runes (s : string) : list Z := range_from 0 s.

(** The writes of [strings.Map]: each rune's image is appended to the output
    buffer ([Builder.WriteRune]), unless it is negative. *)
Definition write_runes (mapping : Z → Z) (l : list Z) : string :=
  foldr (λ c out, if 0 <=? mapping c then EncodeRune (mapping c) +:+ out else out)
        "" l.

(** [strings.Map(mapping, s)]: every rune of [s] replaced by its image,
    dropped when the image is negative.  (Go copies the bytes of a rune that
    [mapping] leaves unchanged, which are its encoding; an invalid byte is
    read as [RuneError] and written as the three bytes of U+FFFD.) *)
Definition Map (mapping : Z → Z) (s : string) : string :=
  write_runes mapping (runes s).

(** ** Letter case ([unicode], [strings]) *)

Definition UpperCase : Z := 0.
Definition LowerCase : Z := 1.
Definition MaxASCII : Z := 0x7F.

(** The loop that opens [strings.ToLower] and [strings.ToUpper]. *)
Fixpoint isASCII (s : string) : bool :=
  match s with
  | "" => true
  | String c t => (byte_of c <? RuneSelf) && isASCII t
  end.

(** The byte loops of their fast paths, taken when the string is ASCII. *)
Fixpoint lower_bytes (s : string) : string :=
  match s with
  | "" => ""
  | String c t =>
    let b := byte_of c in
    String (if (65 <=? b) && (b <=? 90) then to_byte (b + 32) else c) (lower_bytes t)
  end.

Fixpoint upper_bytes (s : string) : string :=
  match s with
  | "" => ""
  | String c t =>
    let b := byte_of c in
    String (if (97 <=? b) && (b <=? 122) then to_byte (b - 32) else c) (upper_bytes t)
  end.

Section Case.
(** [unicode.To(_case, r)], the lookup of [r] in the table
    [unicode.CaseRanges].  The table is data of the Go distribution, not of
    this repository: the lookup is a parameter of the model. *)
Variable To : Z → Z → Z.

(** [unicode.ToLower] and [unicode.ToUpper]. *)
Definition unicode_ToLower (r : Z) : Z :=
  if r <=? MaxASCII then
    (if (65 <=? r) && (r <=? 90) then r + 32 else r)
  else To LowerCase r.

Definition unicode_ToUpper (r : Z) : Z :=
  if r <=? MaxASCII then
    (if (97 <=? r) && (r <=? 122) then r - 32 else r)
  else To UpperCase r.

(** [strings.ToLower] and [strings.ToUpper]. *)
Definition ToLower (s : string) : string :=
  if isASCII s then lower_bytes s else Map unicode_ToLower s.

Definition ToUpper (s : string) : string :=
  if isASCII s then upper_bytes s else Map unicode_ToUpper s.
End Case.

(** ** The program: go/main.go *)

Record StaticSearchTree := { tree : gmap string (list string) }.

(** One iteration of either loop of [mergeDeduplicate]; the state is the map
    [seen], used as a set, and [result]. *)
Definition merge_item (st : gset string * list string) (item : string)
    : gset string * list string :=
  if decide (item ∈ st.1) then st else ({[ item ]} ∪ st.1, st.2 ++ [item]).

Definition mergeDeduplicate (slice1 slice2 : list string) : list string :=
  (foldl merge_item (foldl merge_item (∅, []) slice1) slice2).2.

(** The store at the end of the body of the prefix loop of [build]. *)
Definition store (t : gmap string (list string)) (prefix : string)
    (matches : list string) : gmap string (list string) :=
  match t !! prefix with
  | Some existing => <[ prefix := mergeDeduplicate existing matches ]> t
  | None => <[ prefix := matches ]> t
  end.

Definition Size (sst : StaticSearchTree) : Z := Z.of_nat (size (tree sst)).

(** [GetAllPrefixes].  The order in which [range] goes through the keys of a
    map is not specified and differs from run to run: [order] is the order
    of one run.  The loop appends the keys to [prefixes], which is sorted at
    the end. *)
Definition GetAllPrefixes_from (order : list string) : list string :=
  sort_Strings (foldl (λ prefixes prefix, prefixes ++ [prefix]) [] order).

(** The run that meets the keys in the order of [map_to_list]. *)
Definition GetAllPrefixes (sst : StaticSearchTree) : list string :=
  GetAllPrefixes_from (map_to_list (tree sst)).*1.

Section Program.
Variable To : Z → Z → Z.

(** The candidates loop of [build]: the words matching [prefix]. *)
Definition find_matches (words : list string) (prefix : string) : list string :=
  filter (λ candidate, HasPrefix (ToLower To candidate) prefix = true) words.

(** The body of [for i := 1; i <= len(word); i++]. *)
Definition build_prefix (words : list string) (word : string)
    (t : gmap string (list string)) (i : nat) : gmap string (list string) :=
  let prefix := ToLower To (slice_to word i) in
  store t prefix (find_matches words prefix).

(** The body of [for _, word := range words]. *)
Definition build_word (words : list string) (t : gmap string (list string))
    (word : string) : gmap string (list string) :=
  foldl (build_prefix words word) t (seq 1 (String.length word)).

(** [build] sorts the slice it is given in place and fills the map: the
    result is the tree together with the contents of the caller's slice
    when [build] returns. *)
Definition build (sst : StaticSearchTree) (words : list string)
    : StaticSearchTree * list string :=
  let words := sort_Strings words in
  ({| tree := foldl (build_word words) (tree sst) words |}, words).

Definition NewStaticSearchTree (words : list string)
    : StaticSearchTree * list string :=
  build {| tree := ∅ |} words.

(** [Search]: the stored entry (a copy; values are immutable here) or the
    empty slice. *)
Definition Search (sst : StaticSearchTree) (query : string) : list string :=
  match tree sst !! ToLower To query with
  | Some matches => matches
  | None => []
  end.

(** [SearchWithLimit]; [None] is the run-time panic of the slice expression
    [matches[:limit]] when [limit] is not within [0, cap(matches)]. *)
Definition SearchWithLimit (sst : StaticSearchTree) (query : string)
    (limit : Z) : option (list string) :=
  let matches := Search sst query in
  if Z.of_nat (length matches) <=? limit then Some matches
  else if (0 <=? limit) && (limit <=? Z.of_nat (length matches))
       then Some (take (Z.to_nat limit) matches)
       else None.
End Program.

(** An excerpt of [unicode.CaseRanges]: the entries for U+0080..U+00FF and
    for U+0131, as [{Lo, Hi, [deltaUpper, deltaLower]}].  A rune in no range
    is its own image, as in [unicode.to]. *)
Definition CaseRanges_excerpt : list (Z * Z * (Z * Z)) :=
  [ (0x00B5, 0x00B5, (743, 0));
    (0x00C0, 0x00D6, (0, 32));
    (0x00D8, 0x00DE, (0, 32));
    (0x00E0, 0x00F6, (-32, 0));
    (0x00F8, 0x00FE, (-32, 0));
    (0x00FF, 0x00FF, (121, 0));
    (0x0131, 0x0131, (-232, 0)) ].

Fixpoint to (_case : Z) (r : Z) (caseRange : list (Z * Z * (Z * Z))) : Z :=
  match caseRange with
  | [] => r
  | (lo, hi, (dU, dL)) :: rest =>
    if (lo <=? r) && (r <=? hi) then r + (if _case =? LowerCase then dL else dU)
    else to _case r rest
  end.

Definition To_excerpt (_case r : Z) : Z := to _case r CaseRanges_excerpt.

(** Strings given by their bytes, for words outside ASCII. *)
Definition bytes (l : list Z) : string :=
  foldr (λ b s, String (to_byte b) s) "" l.

(** ** Auxiliary definitions for the statements and proofs *)

(** What the two loops of [mergeDeduplicate] append to [result], given the
    set [seen] they start from. *)
Fixpoint dedup_from (seen : gset string) (l : list string) : list string :=
  match l with
  | [] => []
  | x :: l' =>
    if decide (x ∈ seen) then dedup_from seen l'
    else x :: dedup_from ({[ x ]} ∪ seen) l'
  end.

(** A list without its repeated occurrences (the first of each is kept). *)
Definition nub (l : list string) : list string := dedup_from ∅ l.

(** The keys the prefix loop of [build] visits for one word, in order, and
    the keys the whole of [build] visits for a sorted slice. *)
Definition prefix_keys (To : Z → Z → Z) (word : string) : list string :=
  (λ i, ToLower To (slice_to word i)) <$> seq 1 (String.length word).

Definition all_keys (To : Z → Z → Z) (words : list string) : list string :=
  words ≫= prefix_keys To.

(** One visit of a key. *)
Definition visit (To : Z → Z → Z) (words : list string)
    (t : gmap string (list string)) (p : string) : gmap string (list string) :=
  store t p (find_matches To words p).

(** [utf8.ValidRune]: a code point that is no surrogate half. *)
Definition ValidRune (r : Z) : bool :=
  (0 <=? r) && (r <? 0xD800) || (0xDFFF <? r) && (r <=? MaxRune).

(** What the proofs ask of the table: the lower-case image of a valid rune
    is not negative.  (The image is a [rune], an [int32]; no entry of
    [unicode.CaseRanges] takes a rune below zero.) *)
Definition lower_table_ok (To : Z → Z → Z) : Prop :=
  ∀ r, ValidRune r = true → 0 ≤ To LowerCase r < 2 ^ 31.

(** Runes on which the case mappings act as a case folding: lower-casing
    the lower case changes nothing, and the upper case has the same lower
    case.  The second fails for a few runes of Unicode: U+0131 has the upper
    case U+0049, whose lower case is U+0069. *)
Definition lower_stable (To : Z → Z → Z) (r : Z) : Prop :=
  ValidRune (unicode_ToLower To r) = true
  ∧ unicode_ToLower To (unicode_ToLower To r) = unicode_ToLower To r.

Definition upper_folds (To : Z → Z → Z) (r : Z) : Prop :=
  ValidRune (unicode_ToUpper To r) = true
  ∧ unicode_ToLower To (unicode_ToUpper To r) = unicode_ToLower To r.

(** The length of a UTF-8 sequence, read off its first byte. *)
Definition width_of_first (b : Z) : nat :=
  if b <? 0x80 then 1 else if b <? 0xE0 then 2 else if b <? 0xF0 then 3 else 4.

(** Number of occurrences. *)
Definition occ (x : string) (l : list string) : nat :=
  length (filter (x =.) l).

(** The entry of a key after [n] visits of it, each with the matches [m]. *)
Definition entry_after (n : nat) (m : list string) : option (list string) :=
  match n with
  | O => None
  | S O => Some m
  | _ => Some (nub m)
  end.

(** Case analysis on the comparisons of integers in the goal, one at a
    time, dropping the cases that arithmetic excludes. *)
Ltac case_leb :=
  match goal with |- context [?x <=? ?y] => destruct (Z.leb_spec x y) end.
Ltac case_ltb :=
  match goal with |- context [?x <? ?y] => destruct (Z.ltb_spec x y) end.
Ltac case_eqb :=
  match goal with |- context [?x =? ?y] => destruct (Z.eqb_spec x y) end.
Ltac case_Zcmp :=
  repeat (first [case_leb | case_ltb | case_eqb]; cbn [andb orb] in *; try lia);
  try lia; try done.

(** * Properties *)

(** ** Strings *)

Lemma string_app_cons c s t : String c s +:+ t = String c (s +:+ t).
Proof. reflexivity. Qed.

Lemma HasPrefix_app s p : HasPrefix s p = true ↔ ∃ t, s = p +:+ t.
Proof.
  unfold HasPrefix. revert s. induction p as [|c p IH]; intros s.
  - split; [intros _; by exists s | by destruct s].
  - destruct s as [|d s]; simpl.
    { split; [done | intros [t Ht]; discriminate]. }
    destruct (Ascii.ascii_dec c d) as [->|Hne].
    + rewrite IH. split; intros [t Ht]; exists t;
        rewrite string_app_cons in *; congruence.
    + split; [done | intros [t Ht]; rewrite string_app_cons in Ht; congruence].
Qed.

Lemma slice_to_from s i : slice_to s i +:+ slice_from s i = s.
Proof.
  revert s; induction i as [|i IH]; intros [|c s]; simpl; try done.
  by rewrite string_app_cons, IH.
Qed.

Lemma slice_to_length s i :
  (i ≤ String.length s)%nat → String.length (slice_to s i) = i.
Proof.
  revert s; induction i as [|i IH]; intros [|c s]; simpl; try done; try lia.
  intros ?. rewrite IH; lia.
Qed.

Lemma slice_from_length s i :
  String.length (slice_from s i) = (String.length s - i)%nat.
Proof. revert s; induction i as [|i IH]; intros [|c s]; simpl; auto. Qed.

Lemma slice_from_to s w j :
  slice_from (slice_to s (w + j)) w = slice_to (slice_from s w) j.
Proof.
  revert s; induction w as [|w IH]; intros [|d s]; simpl;
    try done; by destruct j.
Qed.

Lemma slice_from_app a b : slice_from (a +:+ b) (String.length a) = b.
Proof. induction a as [|c a IH]; [by destruct b | done]. Qed.

Lemma string_app_assoc s t u : (s +:+ t) +:+ u = s +:+ (t +:+ u).
Proof.
  induction s as [|c s IH]; [done|]. by rewrite !string_app_cons, IH.
Qed.

(** Two prefixes of one string that have the same length are equal. *)
Lemma string_app_inv_length a b x y :
  a +:+ x = b +:+ y → String.length a = String.length b → a = b ∧ x = y.
Proof.
  revert b; induction a as [|c a IH]; intros [|d b]; simpl; try done.
  rewrite !string_app_cons.
  intros [= -> Hab] [= Hlen]. destruct (IH _ Hab Hlen) as [-> ->]. done.
Qed.

(** ** [mergeDeduplicate] *)

Lemma foldl_merge_item seen res l :
  foldl merge_item (seen, res) l
  = (seen ∪ list_to_set l, res ++ dedup_from seen l).
Proof.
  revert seen res; induction l as [|x l IH]; intros seen res; simpl.
  - f_equal; [set_solver | by rewrite app_nil_r].
  - unfold merge_item at 2; simpl. destruct (decide (x ∈ seen)).
    + rewrite IH. f_equal. set_solver.
    + rewrite IH, <- app_assoc. f_equal. set_solver.
Qed.

Lemma mergeDeduplicate_eq l1 l2 :
  mergeDeduplicate l1 l2 = nub l1 ++ dedup_from (list_to_set l1) l2.
Proof.
  unfold mergeDeduplicate, nub. rewrite !foldl_merge_item. simpl.
  f_equal. f_equal. set_solver.
Qed.

Lemma dedup_from_elem seen l x :
  x ∈ dedup_from seen l ↔ x ∈ l ∧ x ∉ seen.
Proof.
  revert seen; induction l as [|y l IH]; intros seen; simpl.
  - set_solver.
  - destruct (decide (y ∈ seen)).
    + rewrite IH. set_solver.
    + rewrite elem_of_cons, IH. destruct (decide (x = y)); set_solver.
Qed.

Lemma dedup_from_NoDup seen l : NoDup (dedup_from seen l).
Proof.
  revert seen; induction l as [|y l IH]; intros seen; simpl.
  - constructor.
  - destruct (decide (y ∈ seen)); [apply IH|].
    constructor; [|apply IH]. rewrite dedup_from_elem. set_solver.
Qed.

Lemma dedup_from_sublist seen l : dedup_from seen l `sublist_of` l.
Proof.
  revert seen; induction l as [|y l IH]; intros seen; simpl.
  - constructor.
  - destruct (decide (y ∈ seen)); [apply sublist_cons | apply sublist_skip];
      apply IH.
Qed.

Lemma dedup_from_id seen l :
  NoDup l → (∀ x, x ∈ l → x ∉ seen) → dedup_from seen l = l.
Proof.
  revert seen; induction l as [|y l IH]; intros seen Hnd Hout; simpl; [done|].
  apply NoDup_cons in Hnd as [Hy Hnd].
  destruct (decide (y ∈ seen)) as [Hin|_]; [by apply Hout in Hin; [|left]|].
  f_equal. apply IH; [done|]. intros x Hx. set_solver.
Qed.

Lemma dedup_from_covered seen l :
  (∀ x, x ∈ l → x ∈ seen) → dedup_from seen l = [].
Proof.
  induction l as [|y l IH]; intros Hin; simpl; [done|].
  destruct (decide (y ∈ seen)) as [_|Hy]; [apply IH; set_solver|].
  destruct Hy. apply Hin. by left.
Qed.

Lemma nub_elem l x : x ∈ nub l ↔ x ∈ l.
Proof. unfold nub. rewrite dedup_from_elem. set_solver. Qed.

Lemma nub_NoDup l : NoDup (nub l).
Proof. apply dedup_from_NoDup. Qed.

Lemma nub_id l : NoDup l → nub l = l.
Proof. intros ?. apply dedup_from_id; [done | set_solver]. Qed.

Lemma mergeDeduplicate_self l : mergeDeduplicate l l = nub l.
Proof.
  rewrite mergeDeduplicate_eq, dedup_from_covered, app_nil_r; [done|].
  intros x. by rewrite elem_of_list_to_set.
Qed.

Lemma mergeDeduplicate_nub_l l : mergeDeduplicate (nub l) l = nub l.
Proof.
  rewrite mergeDeduplicate_eq, dedup_from_covered, app_nil_r.
  - apply nub_id, nub_NoDup.
  - intros x. by rewrite elem_of_list_to_set, nub_elem.
Qed.

(** ** Counting occurrences *)

Lemma occ_nil x : occ x [] = 0%nat.
Proof. done. Qed.

Lemma occ_cons x y l :
  occ x (y :: l) = ((if decide (x = y) then 1 else 0) + occ x l)%nat.
Proof. unfold occ. rewrite filter_cons. by destruct (decide (x = y)). Qed.

Lemma occ_app x l k : occ x (l ++ k) = (occ x l + occ x k)%nat.
Proof. unfold occ. by rewrite filter_app, length_app. Qed.

Lemma occ_elem x l : x ∈ l → (1 ≤ occ x l)%nat.
Proof.
  induction 1 as [y l|y z l _ IH]; rewrite occ_cons.
  - rewrite decide_True by done. lia.
  - lia.
Qed.

Lemma occ_not_elem x l : x ∉ l → occ x l = 0%nat.
Proof.
  induction l as [|y l IH]; [done|]. rewrite not_elem_of_cons, occ_cons.
  intros [? ?]. rewrite decide_False by done. by rewrite IH.
Qed.

Lemma occ_filter x (P : string → Prop) `{∀ y, Decision (P y)} l :
  (occ x (filter P l) ≤ occ x l)%nat.
Proof.
  induction l as [|y l IH]; [done|]. rewrite filter_cons.
  destruct (decide (P y)); rewrite ?occ_cons; lia.
Qed.

Lemma NoDup_occ l : (∀ x, (occ x l ≤ 1)%nat) → NoDup l.
Proof.
  induction l as [|y l IH]; intros Hocc; constructor.
  - intros Hy%occ_elem. specialize (Hocc y). rewrite occ_cons in Hocc.
    rewrite decide_True in Hocc by done. lia.
  - apply IH. intros x. specialize (Hocc x). rewrite occ_cons in Hocc. lia.
Qed.

Lemma occ_NoDup x l : NoDup l → (occ x l ≤ 1)%nat.
Proof.
  induction 1 as [|y l Hy _ IH]; [rewrite occ_nil; lia|]. rewrite occ_cons.
  destruct (decide (x = y)) as [->|]; [|lia].
  by rewrite (occ_not_elem y l).
Qed.

(** Every copy of [v] in [l] contributes its own elements to [l ≫= f]. *)
Lemma occ_bind (f : string → list string) v p l :
  p ∈ f v → (occ v l ≤ occ p (l ≫= f))%nat.
Proof.
  intros Hp%occ_elem. induction l as [|w l IH]; [done|].
  rewrite bind_cons, occ_app, occ_cons.
  destruct (decide (v = w)) as [<-|]; lia.
Qed.

(** ** Sorted lists *)

Lemma StronglySorted_sublist {A} (R : relation A) (l k : list A) :
  l `sublist_of` k → StronglySorted R k → StronglySorted R l.
Proof.
  induction 1 as [|x l k Hlk IH|x l k Hlk IH]; intros Hk; [done|..].
  - apply StronglySorted_inv in Hk as [Hk Hx]. constructor; [by apply IH|].
    rewrite Forall_forall in Hx |- *. intros y Hy.
    apply Hx. by eapply elem_of_sublist.
  - apply StronglySorted_inv in Hk as [Hk _]. by apply IH.
Qed.

Lemma sort_Strings_sorted a : StronglySorted String.le (sort_Strings a).
Proof. apply StronglySorted_merge_sort; apply _. Qed.

Lemma sort_Strings_perm a : sort_Strings a ≡ₚ a.
Proof. apply merge_sort_Permutation. Qed.

Lemma elem_of_sort_Strings a x : x ∈ sort_Strings a ↔ x ∈ a.
Proof. by rewrite sort_Strings_perm. Qed.

Lemma nub_sorted l : StronglySorted String.le l → StronglySorted String.le (nub l).
Proof. apply StronglySorted_sublist, dedup_from_sublist. Qed.

(** ** The two loops of [build] as one sequence of visits *)

Lemma store_lookup t q m p :
  store t q m !! p =
  if decide (q = p)
  then Some (match t !! q with
             | Some existing => mergeDeduplicate existing m
             | None => m
             end)
  else t !! p.
Proof.
  unfold store. destruct (t !! q) eqn:Hq; destruct (decide (q = p)) as [->|];
    by rewrite ?lookup_insert_eq, ?lookup_insert_ne.
Qed.

Lemma build_word_visit To ws t w :
  build_word To ws t w = foldl (visit To ws) t (prefix_keys To w).
Proof. unfold build_word, prefix_keys. by rewrite foldl_fmap. Qed.

Lemma build_words_visit To ws t l :
  foldl (build_word To ws) t l = foldl (visit To ws) t (all_keys To l).
Proof.
  unfold all_keys. revert t; induction l as [|w l IH]; intros t; [done|].
  rewrite bind_cons, foldl_app. simpl. by rewrite IH, build_word_visit.
Qed.

Lemma entry_after_S n m :
  entry_after (S n) m =
  Some (match entry_after n m with
        | Some existing => mergeDeduplicate existing m
        | None => m
        end).
Proof.
  destruct n as [|[|n]]; simpl; [done| |].
  - by rewrite mergeDeduplicate_self.
  - by rewrite mergeDeduplicate_nub_l.
Qed.

(** After the visits [K], the entry of a key is decided by how often the key
    was visited. *)
Lemma foldl_visit_lookup To ws K p :
  foldl (visit To ws) ∅ K !! p = entry_after (occ p K) (find_matches To ws p).
Proof.
  induction K as [|q K IH] using rev_ind; [simpl; by rewrite lookup_empty|].
  rewrite foldl_app, occ_app, occ_cons, occ_nil. simpl. unfold visit at 1.
  rewrite store_lookup. destruct (decide (q = p)) as [->|Hne].
  - rewrite IH, decide_True by done.
    replace (occ p K + (1 + 0))%nat with (S (occ p K)) by lia.
    by rewrite entry_after_S.
  - rewrite IH, decide_False by done. by rewrite Nat.add_0_r.
Qed.

Lemma tree_lookup To words p :
  tree (NewStaticSearchTree To words).1 !! p =
  entry_after (occ p (all_keys To (sort_Strings words)))
              (find_matches To (sort_Strings words) p).
Proof.
  unfold NewStaticSearchTree, build. simpl.
  by rewrite build_words_visit, foldl_visit_lookup.
Qed.

(** ** Bytes *)

Lemma byte_of_range c : 0 ≤ byte_of c < 256.
Proof.
  unfold byte_of. pose proof (Ascii.N_ascii_bounded c). lia.
Qed.

Lemma to_byte_of c : to_byte (byte_of c) = c.
Proof.
  unfold to_byte. pose proof (byte_of_range c).
  rewrite Z.mod_small by done. unfold byte_of.
  by rewrite N2Z.id, Ascii.ascii_N_embedding.
Qed.

Lemma byte_of_to x : byte_of (to_byte x) = x mod 256.
Proof.
  unfold byte_of, to_byte. pose proof (Z.mod_pos_bound x 256).
  rewrite Ascii.N_ascii_embedding by lia. lia.
Qed.

Lemma byte_of_inj a b : byte_of a = byte_of b → a = b.
Proof. intros Hab. by rewrite <- (to_byte_of a), <- (to_byte_of b), Hab. Qed.

Lemma to_byte_eq x c : byte_of (to_byte x) = byte_of c → to_byte x = c.
Proof. apply byte_of_inj. Qed.

(** A property of a few small integers, checked on each of them. *)
Lemma Z_below (P : Z → Prop) `{∀ x, Decision (P x)} (n : Z) :
  bool_decide (Forall P (seqZ 0 n)) → ∀ x, 0 ≤ x < n → P x.
Proof.
  intros Hall%bool_decide_unpack x Hx.
  rewrite Forall_forall in Hall. apply Hall, elem_of_seqZ. lia.
Qed.

Lemma lor_lead2 x : 0 ≤ x < 32 → 0xC0 ≤ Z.lor 0xC0 x < 0xE0.
Proof. revert x. by apply (Z_below (λ x, 0xC0 ≤ Z.lor 0xC0 x < 0xE0)). Qed.

Lemma lor_lead3 x : 0 ≤ x < 16 → 0xE0 ≤ Z.lor 0xE0 x < 0xF0.
Proof. revert x. by apply (Z_below (λ x, 0xE0 ≤ Z.lor 0xE0 x < 0xF0)). Qed.

Lemma lor_lead4 x : 0 ≤ x < 8 → 0xF0 ≤ Z.lor 0xF0 x < 0xF8.
Proof. revert x. by apply (Z_below (λ x, 0xF0 ≤ Z.lor 0xF0 x < 0xF8)). Qed.

Lemma shiftr_below r k n :
  0 ≤ k → 0 ≤ r < n * 2 ^ k → 0 ≤ Z.shiftr r k < n.
Proof.
  intros Hk Hr. rewrite Z.shiftr_div_pow2 by done.
  split; [apply Z.div_pos; lia | apply Z.div_lt_upper_bound; lia].
Qed.

Lemma land_mul_pow2_low x k y :
  0 ≤ k → 0 ≤ y < 2 ^ k → Z.land (x * 2 ^ k) y = 0.
Proof.
  intros Hk Hy. apply Z.bits_inj'. intros n Hn.
  rewrite Z.land_spec, Z.bits_0.
  destruct (Z.lt_ge_cases n k) as [Hlt|Hge].
  - by rewrite Z.mul_pow2_bits_low by lia.
  - rewrite <- (Z.mod_small y (2 ^ k)) by lia.
    rewrite Z.mod_pow2_bits_high by lia. apply andb_false_r.
Qed.

(** Bits that do not overlap: [|] is [+]. *)
Lemma lor_mul_pow2_add x k y :
  0 ≤ k → 0 ≤ y < 2 ^ k → Z.lor (x * 2 ^ k) y = x * 2 ^ k + y.
Proof.
  intros Hk Hy. rewrite <- Z.lxor_lor by (by apply land_mul_pow2_low).
  symmetry. by apply Z.add_nocarry_lxor, land_mul_pow2_low.
Qed.

Lemma lor_const_add c k y :
  0 ≤ k → c mod 2 ^ k = 0 → 0 ≤ y < 2 ^ k → Z.lor c y = c + y.
Proof.
  intros Hk Hc Hy.
  assert (c = c / 2 ^ k * 2 ^ k) as Hmul.
  { pose proof (Z.div_mod c (2 ^ k) ltac:(lia)). lia. }
  rewrite Hmul. by apply lor_mul_pow2_add.
Qed.

Lemma byte_lead2 r :
  0 ≤ r < 2048 → byte_of (to_byte (Z.lor 0xC0 (Z.shiftr r 6))) = 192 + r / 64.
Proof.
  intros Hr. rewrite byte_of_to, Z.shiftr_div_pow2 by lia.
  change (2 ^ 6) with 64.
  rewrite (lor_const_add _ 6) by (done || (Z.div_mod_to_equations; lia)).
  Z.div_mod_to_equations; lia.
Qed.

Lemma byte_lead3 r :
  0 ≤ r < 65536 → byte_of (to_byte (Z.lor 0xE0 (Z.shiftr r 12))) = 224 + r / 4096.
Proof.
  intros Hr. rewrite byte_of_to, Z.shiftr_div_pow2 by lia.
  change (2 ^ 12) with 4096.
  rewrite (lor_const_add _ 5) by (done || (Z.div_mod_to_equations; lia)).
  Z.div_mod_to_equations; lia.
Qed.

Lemma byte_lead4 r :
  0 ≤ r < 2097152 →
  byte_of (to_byte (Z.lor 0xF0 (Z.shiftr r 18))) = 240 + r / 262144.
Proof.
  intros Hr. rewrite byte_of_to, Z.shiftr_div_pow2 by lia.
  change (2 ^ 18) with 262144.
  rewrite (lor_const_add _ 4) by (done || (Z.div_mod_to_equations; lia)).
  Z.div_mod_to_equations; lia.
Qed.

Lemma byte_cont x :
  byte_of (to_byte (Z.lor 0x80 (Z.land x 0x3F))) = 128 + x mod 64.
Proof.
  rewrite byte_of_to. change 0x3F with (Z.ones 6).
  rewrite Z.land_ones by lia. change (2 ^ 6) with 64.
  rewrite (lor_const_add _ 6) by (done || (Z.div_mod_to_equations; lia)).
  Z.div_mod_to_equations; lia.
Qed.

(** ** UTF-8: encoding *)

Lemma width_of_first_cases b :
  (b < 0x80 ∧ width_of_first b = 1%nat)
  ∨ (0x80 ≤ b < 0xE0 ∧ width_of_first b = 2%nat)
  ∨ (0xE0 ≤ b < 0xF0 ∧ width_of_first b = 3%nat)
  ∨ (0xF0 ≤ b ∧ width_of_first b = 4%nat).
Proof.
  unfold width_of_first.
  destruct (Z.ltb_spec b 0x80); [by left|].
  destruct (Z.ltb_spec b 0xE0); [right; by left|].
  destruct (Z.ltb_spec b 0xF0); [right; right; by left|].
  right; right; by right.
Qed.

Lemma EncodeRune_shape r :
  0 ≤ r < 2 ^ 31 →
  ∃ c t, EncodeRune r = String c t
         ∧ String.length (EncodeRune r) = width_of_first (byte_of c).
Proof.
  intros Hr. unfold EncodeRune. rewrite (Z.mod_small r) by lia.
  destruct (Z.leb_spec r 0x7F) as [H1|H1].
  { eexists _, _. split; [done|]. cbn [String.length].
    rewrite byte_of_to, Z.mod_small by lia.
    destruct (width_of_first_cases r) as [[? ->]|[[? ->]|[[? ->]|[? ->]]]];
      done || lia. }
  destruct (Z.leb_spec r 0x7FF) as [H2|H2].
  { eexists _, _. split; [done|]. cbn [String.length]. rewrite byte_of_to.
    pose proof (lor_lead2 (Z.shiftr r 6) (shiftr_below r 6 32 ltac:(lia) ltac:(lia))).
    rewrite Z.mod_small by lia.
    destruct (width_of_first_cases (Z.lor 192 (Z.shiftr r 6)))
      as [[? ->]|[[? ->]|[[? ->]|[? ->]]]]; done || lia. }
  destruct ((MaxRune <? r) || (0xD800 <=? r) && (r <=? 0xDFFF)) eqn:Hbad.
  { eexists _, _. split; [done|]. reflexivity. }
  apply orb_false_iff in Hbad as [Hmax%Z.ltb_ge _]. unfold MaxRune in Hmax.
  destruct (Z.leb_spec r 0xFFFF) as [H3|H3].
  { eexists _, _. split; [done|]. cbn [String.length]. rewrite byte_of_to.
    pose proof (lor_lead3 (Z.shiftr r 12) (shiftr_below r 12 16 ltac:(lia) ltac:(lia))).
    rewrite Z.mod_small by lia.
    destruct (width_of_first_cases (Z.lor 224 (Z.shiftr r 12)))
      as [[? ->]|[[? ->]|[[? ->]|[? ->]]]]; done || lia. }
  eexists _, _. split; [done|]. cbn [String.length]. rewrite byte_of_to.
  pose proof (lor_lead4 (Z.shiftr r 18) (shiftr_below r 18 8 ltac:(lia) ltac:(lia))).
  rewrite Z.mod_small by lia.
  destruct (width_of_first_cases (Z.lor 240 (Z.shiftr r 18)))
    as [[? ->]|[[? ->]|[[? ->]|[? ->]]]]; done || lia.
Qed.

Lemma EncodeRune_ascii b : 0 ≤ b < 0x80 → EncodeRune b = String (to_byte b) "".
Proof.
  intros Hb. unfold EncodeRune. rewrite Z.mod_small by lia.
  destruct (Z.leb_spec b 0x7F); [done | lia].
Qed.

(** ** UTF-8: decoding *)

Lemma decode_width c t :
  (1 ≤ (DecodeRuneInString (String c t)).2 ≤ String.length (String c t))%nat.
Proof.
  unfold DecodeRuneInString. repeat case_match; simpl; lia.
Qed.

(** Decoding reads no byte past the rune it returns, and a byte that is
    invalid stays invalid when the string is cut after it. *)
Lemma decode_trunc s n :
  ((DecodeRuneInString s).2 ≤ n)%nat →
  DecodeRuneInString (slice_to s n) = DecodeRuneInString s.
Proof.
  destruct s as [|c0 [|c1 [|c2 [|c3 t]]]]; destruct n as [|[|[|[|n]]]];
    cbn [slice_to]; unfold DecodeRuneInString; intros Hw;
    repeat case_match; simplify_eq; cbn [snd] in Hw; try done; try lia.
Qed.

Lemma decode_ascii c t :
  byte_of c < RuneSelf → DecodeRuneInString (String c t) = (byte_of c, 1%nat).
Proof.
  intros Hc%Z.ltb_lt. unfold DecodeRuneInString. cbv zeta. by rewrite Hc.
Qed.

Lemma first_2 b : 0xC2 ≤ b ≤ 0xDF → first b = Some (2%nat, 0x80, 0xBF).
Proof.
  intros Hb. unfold first.
  destruct (Z.ltb_spec b 0xC2); [lia|].
  destruct (Z.leb_spec b 0xDF); [done | lia].
Qed.

Lemma first_3 b :
  0xE0 ≤ b ≤ 0xEF →
  first b = Some (3%nat, if b =? 0xE0 then 0xA0 else 0x80,
                         if b =? 0xED then 0x9F else 0xBF).
Proof.
  intros Hb. unfold first.
  destruct (Z.ltb_spec b 0xC2); [lia|].
  destruct (Z.leb_spec b 0xDF); [lia|].
  destruct (Z.eqb_spec b 0xE0) as [->|]; [done|].
  destruct (Z.leb_spec b 0xEC).
  { destruct (Z.eqb_spec b 0xED); [lia | done]. }
  destruct (Z.eqb_spec b 0xED) as [->|]; [done|].
  destruct (Z.leb_spec b 0xEF); [done | lia].
Qed.

Lemma first_4 b :
  0xF0 ≤ b ≤ 0xF4 →
  first b = Some (4%nat, if b =? 0xF0 then 0x90 else 0x80,
                         if b =? 0xF4 then 0x8F else 0xBF).
Proof.
  intros Hb. unfold first.
  destruct (Z.ltb_spec b 0xC2); [lia|].
  destruct (Z.leb_spec b 0xDF); [lia|].
  destruct (Z.eqb_spec b 0xE0); [lia|].
  destruct (Z.leb_spec b 0xEC); [lia|].
  destruct (Z.eqb_spec b 0xED); [lia|].
  destruct (Z.leb_spec b 0xEF); [lia|].
  destruct (Z.eqb_spec b 0xF0) as [->|]; [done|].
  destruct (Z.leb_spec b 0xF3).
  { destruct (Z.eqb_spec b 0xF4); [lia | done]. }
  destruct (Z.eqb_spec b 0xF4) as [->|]; [done | lia].
Qed.

Lemma not_cont_false b : 0x80 ≤ b ≤ 0xBF → not_cont b = false.
Proof.
  intros Hb. unfold not_cont. apply orb_false_iff.
  split; [apply Z.ltb_ge | apply Z.ltb_ge]; lia.
Qed.

Lemma out_of_range_false b lo hi : lo ≤ b ≤ hi → (b <? lo) || (hi <? b) = false.
Proof. intros Hb. apply orb_false_iff. split; apply Z.ltb_ge; lia. Qed.

Lemma decode2 c0 c1 t :
  0xC2 ≤ byte_of c0 ≤ 0xDF → 0x80 ≤ byte_of c1 ≤ 0xBF →
  DecodeRuneInString (String c0 (String c1 t))
  = (byte_of c0 mod 32 * 64 + byte_of c1 mod 64, 2%nat).
Proof.
  intros H0 H1. unfold DecodeRuneInString. cbv zeta.
  destruct (Z.ltb_spec (byte_of c0) RuneSelf) as [Hlt|_];
    [unfold RuneSelf in Hlt; lia|].
  rewrite first_2, out_of_range_false by done. cbn [Nat.leb]. f_equal.
  change 0x1F with (Z.ones 5). change 0x3F with (Z.ones 6).
  rewrite !Z.land_ones, Z.shiftl_mul_pow2 by lia.
  rewrite lor_mul_pow2_add by (Z.div_mod_to_equations; lia). done.
Qed.

Lemma decode3 c0 c1 c2 t :
  0xE0 ≤ byte_of c0 ≤ 0xEF →
  (if byte_of c0 =? 0xE0 then 0xA0 else 0x80) ≤ byte_of c1
    ≤ (if byte_of c0 =? 0xED then 0x9F else 0xBF) →
  0x80 ≤ byte_of c2 ≤ 0xBF →
  DecodeRuneInString (String c0 (String c1 (String c2 t)))
  = (byte_of c0 mod 16 * 4096 + byte_of c1 mod 64 * 64 + byte_of c2 mod 64,
     3%nat).
Proof.
  intros H0 H1 H2. unfold DecodeRuneInString. cbv zeta.
  destruct (Z.ltb_spec (byte_of c0) RuneSelf) as [Hlt|_];
    [unfold RuneSelf in Hlt; lia|].
  rewrite first_3, out_of_range_false, not_cont_false by done.
  cbn [Nat.leb]. f_equal.
  change 0x0F with (Z.ones 4). change 0x3F with (Z.ones 6).
  rewrite !Z.land_ones, !Z.shiftl_mul_pow2 by lia.
  rewrite (lor_mul_pow2_add _ 12) by (Z.div_mod_to_equations; lia).
  replace (byte_of c0 mod 2 ^ 4 * 2 ^ 12 + byte_of c1 mod 2 ^ 6 * 2 ^ 6)
    with ((byte_of c0 mod 2 ^ 4 * 2 ^ 6 + byte_of c1 mod 2 ^ 6) * 2 ^ 6) by lia.
  rewrite lor_mul_pow2_add by (Z.div_mod_to_equations; lia).
  change (2 ^ 4) with 16. change (2 ^ 6) with 64. lia.
Qed.

Lemma decode4 c0 c1 c2 c3 t :
  0xF0 ≤ byte_of c0 ≤ 0xF4 →
  (if byte_of c0 =? 0xF0 then 0x90 else 0x80) ≤ byte_of c1
    ≤ (if byte_of c0 =? 0xF4 then 0x8F else 0xBF) →
  0x80 ≤ byte_of c2 ≤ 0xBF → 0x80 ≤ byte_of c3 ≤ 0xBF →
  DecodeRuneInString (String c0 (String c1 (String c2 (String c3 t))))
  = (byte_of c0 mod 8 * 262144 + byte_of c1 mod 64 * 4096
     + byte_of c2 mod 64 * 64 + byte_of c3 mod 64, 4%nat).
Proof.
  intros H0 H1 H2 H3. unfold DecodeRuneInString. cbv zeta.
  destruct (Z.ltb_spec (byte_of c0) RuneSelf) as [Hlt|_];
    [unfold RuneSelf in Hlt; lia|].
  rewrite first_4, out_of_range_false, !not_cont_false by done.
  cbn [Nat.leb]. f_equal.
  change 0x07 with (Z.ones 3). change 0x3F with (Z.ones 6).
  rewrite !Z.land_ones, !Z.shiftl_mul_pow2 by lia.
  rewrite (lor_mul_pow2_add _ 18) by (Z.div_mod_to_equations; lia).
  replace (byte_of c0 mod 2 ^ 3 * 2 ^ 18 + byte_of c1 mod 2 ^ 6 * 2 ^ 12)
    with ((byte_of c0 mod 2 ^ 3 * 2 ^ 6 + byte_of c1 mod 2 ^ 6) * 2 ^ 12) by lia.
  rewrite (lor_mul_pow2_add _ 12) by (Z.div_mod_to_equations; lia).
  replace ((byte_of c0 mod 2 ^ 3 * 2 ^ 6 + byte_of c1 mod 2 ^ 6) * 2 ^ 12
           + byte_of c2 mod 2 ^ 6 * 2 ^ 6)
    with (((byte_of c0 mod 2 ^ 3 * 2 ^ 6 + byte_of c1 mod 2 ^ 6) * 2 ^ 6
           + byte_of c2 mod 2 ^ 6) * 2 ^ 6) by lia.
  rewrite lor_mul_pow2_add by (Z.div_mod_to_equations; lia).
  change (2 ^ 3) with 8. change (2 ^ 6) with 64. lia.
Qed.

(** What [DecodeRuneInString] returns on a string that is not empty: an ASCII
    byte, [(RuneError, 1)], or the rune of a well-formed sequence of two,
    three or four bytes. *)
Lemma decode_inv c0 t :
  (byte_of c0 < 0x80 ∧ DecodeRuneInString (String c0 t) = (byte_of c0, 1%nat))
  ∨ DecodeRuneInString (String c0 t) = (RuneError, 1%nat)
  ∨ (∃ c1 t1, t = String c1 t1
       ∧ 0xC2 ≤ byte_of c0 ≤ 0xDF ∧ 0x80 ≤ byte_of c1 ≤ 0xBF)
  ∨ (∃ c1 c2 t2, t = String c1 (String c2 t2)
       ∧ 0xE0 ≤ byte_of c0 ≤ 0xEF
       ∧ (if byte_of c0 =? 0xE0 then 0xA0 else 0x80) ≤ byte_of c1
           ≤ (if byte_of c0 =? 0xED then 0x9F else 0xBF)
       ∧ 0x80 ≤ byte_of c2 ≤ 0xBF)
  ∨ (∃ c1 c2 c3 t3, t = String c1 (String c2 (String c3 t3))
       ∧ 0xF0 ≤ byte_of c0 ≤ 0xF4
       ∧ (if byte_of c0 =? 0xF0 then 0x90 else 0x80) ≤ byte_of c1
           ≤ (if byte_of c0 =? 0xF4 then 0x8F else 0xBF)
       ∧ 0x80 ≤ byte_of c2 ≤ 0xBF ∧ 0x80 ≤ byte_of c3 ≤ 0xBF).
Proof.
  destruct (Z.lt_ge_cases (byte_of c0) 0x80) as [Hascii|Hhigh].
  { left. split; [done|]. by apply decode_ascii. }
  right.
  assert (∀ b, not_cont b = true ∨ 0x80 ≤ b ≤ 0xBF) as Hcont.
  { intros b. unfold not_cont.
    destruct (Z.ltb_spec b 0x80); [by left|].
    destruct (Z.ltb_spec 0xBF b); [by left | right; lia]. }
  assert (∀ b lo hi, (b <? lo) || (hi <? b) = true ∨ lo ≤ b ≤ hi) as Hrange.
  { intros b lo hi.
    destruct (Z.ltb_spec b lo); [by left|].
    destruct (Z.ltb_spec hi b); [by left | right; lia]. }
  unfold DecodeRuneInString. cbv zeta.
  destruct (Z.ltb_spec (byte_of c0) RuneSelf) as [Hlt|_];
    [unfold RuneSelf in Hlt; lia|].
  destruct (Z.lt_ge_cases (byte_of c0) 0xC2) as [?|H2].
  { left. unfold first. by destruct (Z.ltb_spec (byte_of c0) 0xC2); [|lia]. }
  destruct (Z.le_gt_cases (byte_of c0) 0xDF) as [H2'|H3].
  { rewrite first_2 by done. destruct t as [|c1 t1]; [by left|].
    destruct (Hrange (byte_of c1) 0x80 0xBF) as [->|Hc1]; [by left|].
    right; left. by exists c1, t1. }
  destruct (Z.le_gt_cases (byte_of c0) 0xEF) as [H3'|H4].
  { rewrite first_3 by lia. cbn [Nat.leb].
    destruct t as [|c1 [|c2 t2]]; [by left|left; repeat case_match; done|].
    destruct (Hrange (byte_of c1)
                (if byte_of c0 =? 0xE0 then 0xA0 else 0x80)
                (if byte_of c0 =? 0xED then 0x9F else 0xBF)) as [->|Hc1];
      [by left|].
    destruct (Hcont (byte_of c2)) as [->|Hc2]; [left; repeat case_match; done|].
    right; right; left. exists c1, c2, t2. repeat split; lia || done. }
  destruct (Z.le_gt_cases (byte_of c0) 0xF4) as [H4'|H5].
  { rewrite first_4 by lia. cbn [Nat.leb].
    destruct t as [|c1 [|c2 [|c3 t3]]];
      [by left|left; repeat case_match; done|left; repeat case_match; done|].
    destruct (Hrange (byte_of c1)
                (if byte_of c0 =? 0xF0 then 0x90 else 0x80)
                (if byte_of c0 =? 0xF4 then 0x8F else 0xBF)) as [->|Hc1];
      [by left|].
    destruct (Hcont (byte_of c2)) as [->|Hc2]; [left; repeat case_match; done|].
    destruct (Hcont (byte_of c3)) as [->|Hc3]; [left; repeat case_match; done|].
    right; right; right. exists c1, c2, c3, t3. repeat split; lia || done. }
  left. unfold first.
  repeat (first [case_leb | case_ltb | case_eqb]; try lia). done.
Qed.

Lemma ValidRune_range r :
  ValidRune r = true → 0 ≤ r ≤ 0x10FFFF ∧ ¬ (0xD800 ≤ r ≤ 0xDFFF).
Proof.
  unfold ValidRune, MaxRune.
  intros [[?%Z.leb_le ?%Z.ltb_lt]%andb_true_iff
         |[?%Z.ltb_lt ?%Z.leb_le]%andb_true_iff]%orb_true_iff; lia.
Qed.

Lemma ValidRune_intro r :
  0 ≤ r ≤ 0x10FFFF → ¬ (0xD800 ≤ r ≤ 0xDFFF) → ValidRune r = true.
Proof. intros Hr Hsur. unfold ValidRune, MaxRune. case_Zcmp. Qed.

(** The rune of a well-formed sequence, with its range. *)
Lemma rune2_range v0 v1 :
  0xC2 ≤ v0 ≤ 0xDF → 0x80 ≤ v1 ≤ 0xBF →
  0x80 ≤ v0 mod 32 * 64 + v1 mod 64 ≤ 0x7FF.
Proof. intros. Z.div_mod_to_equations; lia. Qed.

Lemma rune3_range v0 v1 v2 :
  0xE0 ≤ v0 ≤ 0xEF →
  (if v0 =? 0xE0 then 0xA0 else 0x80) ≤ v1 ≤ (if v0 =? 0xED then 0x9F else 0xBF) →
  0x80 ≤ v2 ≤ 0xBF →
  0x800 ≤ v0 mod 16 * 4096 + v1 mod 64 * 64 + v2 mod 64 ≤ 0xFFFF
  ∧ ¬ (0xD800 ≤ v0 mod 16 * 4096 + v1 mod 64 * 64 + v2 mod 64 ≤ 0xDFFF).
Proof.
  intros H0 H1 H2.
  destruct (Z.eqb_spec v0 0xE0), (Z.eqb_spec v0 0xED);
    Z.div_mod_to_equations; lia.
Qed.

Lemma rune4_range v0 v1 v2 v3 :
  0xF0 ≤ v0 ≤ 0xF4 →
  (if v0 =? 0xF0 then 0x90 else 0x80) ≤ v1 ≤ (if v0 =? 0xF4 then 0x8F else 0xBF) →
  0x80 ≤ v2 ≤ 0xBF → 0x80 ≤ v3 ≤ 0xBF →
  0x10000 ≤ v0 mod 8 * 262144 + v1 mod 64 * 4096 + v2 mod 64 * 64 + v3 mod 64
    ≤ 0x10FFFF.
Proof.
  intros H0 H1 H2 H3.
  destruct (Z.eqb_spec v0 0xF0), (Z.eqb_spec v0 0xF4);
    Z.div_mod_to_equations; lia.
Qed.

(** Every decoded rune is a valid one. *)
Lemma decode_valid s : ValidRune (DecodeRuneInString s).1 = true.
Proof.
  destruct s as [|c0 t]; [done|].
  destruct (decode_inv c0 t)
    as [[Hc ->]|[->|[(c1 & t1 & -> & H0 & H1)
                    |[(c1 & c2 & t2 & -> & H0 & H1 & H2)
                     |(c1 & c2 & c3 & t3 & -> & H0 & H1 & H2 & H3)]]]];
    [|done|..]; cbn [fst].
  - pose proof (byte_of_range c0). apply ValidRune_intro; lia.
  - rewrite decode2 by done. cbn [fst].
    pose proof (rune2_range _ _ H0 H1). apply ValidRune_intro; lia.
  - rewrite decode3 by done. cbn [fst].
    pose proof (rune3_range _ _ _ H0 H1 H2) as [? ?]. apply ValidRune_intro; lia.
  - rewrite decode4 by done. cbn [fst].
    pose proof (rune4_range _ _ _ _ H0 H1 H2 H3). apply ValidRune_intro; lia.
Qed.

(** ** UTF-8: decoding and encoding are inverse to each other *)

(** Decoding reads back the rune that was encoded. *)
Lemma decode_encode r t :
  ValidRune r = true →
  DecodeRuneInString (EncodeRune r +:+ t) = (r, String.length (EncodeRune r)).
Proof.
  intros [Hr Hsur]%ValidRune_range. unfold EncodeRune.
  rewrite (Z.mod_small r) by lia.
  destruct (Z.leb_spec r 0x7F) as [H1|H1].
  { rewrite string_app_cons.
    assert (byte_of (to_byte r) = r) as Hb
      by (rewrite byte_of_to, Z.mod_small; lia).
    rewrite decode_ascii by (unfold RuneSelf; lia). by rewrite Hb. }
  destruct (Z.leb_spec r 0x7FF) as [H2|H2].
  { rewrite !string_app_cons, decode2;
      rewrite ?byte_lead2, ?byte_cont by lia;
      [|Z.div_mod_to_equations; lia..].
    cbn [String.length]. f_equal. Z.div_mod_to_equations; lia. }
  destruct ((MaxRune <? r) || (0xD800 <=? r) && (r <=? 0xDFFF)) eqn:Hbad.
  { apply orb_true_iff in Hbad
      as [?%Z.ltb_lt|[?%Z.leb_le ?%Z.leb_le]%andb_true_iff];
      unfold MaxRune in *; lia. }
  destruct (Z.leb_spec r 0xFFFF) as [H3|H3].
  { unfold encode3. rewrite !string_app_cons, decode3;
      rewrite ?byte_lead3, ?byte_cont, ?Z.shiftr_div_pow2 by lia;
      change (2 ^ 6) with 64.
    - cbn [String.length]. f_equal. Z.div_mod_to_equations; lia.
    - Z.div_mod_to_equations; lia.
    - destruct (Z.eqb_spec (224 + r / 4096) 224),
               (Z.eqb_spec (224 + r / 4096) 237);
        Z.div_mod_to_equations; lia.
    - Z.div_mod_to_equations; lia. }
  unfold encode4. rewrite !string_app_cons, decode4;
    rewrite ?byte_lead4, ?byte_cont, ?Z.shiftr_div_pow2 by lia;
    change (2 ^ 6) with 64; change (2 ^ 12) with 4096.
  - cbn [String.length]. f_equal. Z.div_mod_to_equations; lia.
  - Z.div_mod_to_equations; lia.
  - destruct (Z.eqb_spec (240 + r / 262144) 240),
             (Z.eqb_spec (240 + r / 262144) 244);
      Z.div_mod_to_equations; lia.
  - Z.div_mod_to_equations; lia.
  - Z.div_mod_to_equations; lia.
Qed.

(** Encoding writes back the bytes that were decoded.  This is why
    [strings.Map] may copy the bytes of a rune it does not change. *)
Lemma encode_decode c0 t :
  DecodeRuneInString (String c0 t) ≠ (RuneError, 1%nat) →
  EncodeRune (DecodeRuneInString (String c0 t)).1
  = slice_to (String c0 t) (DecodeRuneInString (String c0 t)).2.
Proof.
  intros Hvalid.
  destruct (decode_inv c0 t)
    as [[Hc Hdec]|[Hdec|[(c1 & t1 & -> & H0 & H1)
                    |[(c1 & c2 & t2 & -> & H0 & H1 & H2)
                     |(c1 & c2 & c3 & t3 & -> & H0 & H1 & H2 & H3)]]]];
    [|done|..].
  - rewrite Hdec. cbn [fst snd slice_to]. pose proof (byte_of_range c0).
    by rewrite EncodeRune_ascii, to_byte_of by lia.
  - rewrite decode2 by done. cbn [fst snd slice_to].
    pose proof (rune2_range _ _ H0 H1) as Hr.
    set (r := byte_of c0 mod 32 * 64 + byte_of c1 mod 64) in *.
    unfold EncodeRune. rewrite (Z.mod_small r) by lia.
    destruct (Z.leb_spec r 0x7F); [lia|]. destruct (Z.leb_spec r 0x7FF); [|lia].
    f_equal; [|f_equal]; apply to_byte_eq;
      rewrite ?byte_lead2, ?byte_cont by lia; unfold r;
      Z.div_mod_to_equations; lia.
  - rewrite decode3 by done. cbn [fst snd slice_to].
    pose proof (rune3_range _ _ _ H0 H1 H2) as [Hr Hsur].
    set (r := byte_of c0 mod 16 * 4096 + byte_of c1 mod 64 * 64
              + byte_of c2 mod 64) in *.
    unfold EncodeRune, MaxRune. rewrite (Z.mod_small r) by lia.
    destruct (Z.leb_spec r 0x7F); [lia|]. destruct (Z.leb_spec r 0x7FF); [lia|].
    replace ((0x10FFFF <? r) || (0xD800 <=? r) && (r <=? 0xDFFF)) with false
      by (symmetry; case_Zcmp).
    destruct (Z.leb_spec r 0xFFFF); [|lia]. unfold encode3.
    f_equal; [|f_equal; [|f_equal]]; apply to_byte_eq;
      rewrite ?byte_lead3, ?byte_cont, ?Z.shiftr_div_pow2 by lia;
      change (2 ^ 6) with 64; unfold r;
      destruct (Z.eqb_spec (byte_of c0) 0xE0), (Z.eqb_spec (byte_of c0) 0xED);
      Z.div_mod_to_equations; lia.
  - rewrite decode4 by done. cbn [fst snd slice_to].
    pose proof (rune4_range _ _ _ _ H0 H1 H2 H3) as Hr.
    set (r := byte_of c0 mod 8 * 262144 + byte_of c1 mod 64 * 4096
              + byte_of c2 mod 64 * 64 + byte_of c3 mod 64) in *.
    unfold EncodeRune, MaxRune. rewrite (Z.mod_small r) by lia.
    destruct (Z.leb_spec r 0x7F); [lia|]. destruct (Z.leb_spec r 0x7FF); [lia|].
    replace ((0x10FFFF <? r) || (0xD800 <=? r) && (r <=? 0xDFFF)) with false
      by (symmetry; case_Zcmp).
    destruct (Z.leb_spec r 0xFFFF); [lia|]. unfold encode4.
    f_equal; [|f_equal; [|f_equal; [|f_equal]]]; apply to_byte_eq;
      rewrite ?byte_lead4, ?byte_cont, ?Z.shiftr_div_pow2 by lia;
      change (2 ^ 6) with 64; change (2 ^ 12) with 4096; unfold r;
      destruct (Z.eqb_spec (byte_of c0) 0xF0), (Z.eqb_spec (byte_of c0) 0xF4);
      Z.div_mod_to_equations; lia.
Qed.

(** ** The runes of a string *)

Lemma range_from_slice k t : range_from k t = runes (slice_from t k).
Proof.
  unfold runes. revert t; induction k as [|k IH]; intros [|c t]; try done.
  simpl. apply IH.
Qed.

Lemma runes_cons c t :
  runes (String c t) =
  (DecodeRuneInString (String c t)).1
  :: runes (slice_from (String c t) (DecodeRuneInString (String c t)).2).
Proof.
  unfold runes at 1. cbn [range_from]. rewrite range_from_slice.
  pose proof (decode_width c t) as [Hw _].
  destruct (DecodeRuneInString (String c t)).2 as [|w]; [lia|]. done.
Qed.

Lemma runes_ascii c t :
  byte_of c < RuneSelf → runes (String c t) = byte_of c :: runes t.
Proof. intros Hc. rewrite runes_cons, decode_ascii by done. reflexivity. Qed.

Lemma runes_isASCII q :
  isASCII q = true → Forall (λ r, 0 ≤ r < 0x80) (runes q).
Proof.
  induction q as [|c t IH]; [constructor|]. cbn [isASCII].
  intros [Hc%Z.ltb_lt Ht]%andb_true_iff. rewrite runes_ascii by done.
  constructor; [|by apply IH].
  pose proof (byte_of_range c). unfold RuneSelf in Hc. lia.
Qed.

Lemma runes_app_ascii a b :
  isASCII a = true → runes (a +:+ b) = runes a ++ runes b.
Proof.
  induction a as [|c a IH]; [done|]. cbn [isASCII].
  intros [Hc%Z.ltb_lt Ha]%andb_true_iff.
  rewrite string_app_cons, !runes_ascii by done. by rewrite IH.
Qed.

Lemma runes_valid s : Forall (λ r, ValidRune r = true) (runes s).
Proof.
  remember (String.length s) as n eqn:Hn. revert s Hn.
  induction n as [n IH] using lt_wf_ind; intros [|c t] ->; [constructor|].
  rewrite runes_cons. constructor; [apply decode_valid|].
  eapply IH; [|done]. rewrite slice_from_length.
  pose proof (decode_width c t). lia.
Qed.

(** Every initial segment of the runes of [s] is the runes of an initial
    segment of [s]. *)
Lemma runes_take s m :
  ∃ j, (j ≤ String.length s)%nat ∧ runes (slice_to s j) = take m (runes s).
Proof.
  remember (String.length s) as n eqn:Hn. revert s m Hn.
  induction n as [n IH] using lt_wf_ind; intros s m ->.
  destruct m as [|m]; [exists 0%nat; split; [lia | by destruct s]|].
  destruct s as [|c t]; [by exists 0%nat|].
  pose proof (decode_width c t) as [Hw1 Hw2].
  set (w := (DecodeRuneInString (String c t)).2) in *.
  destruct (IH (String.length (slice_from (String c t) w))
               ltac:(rewrite slice_from_length; lia) _ m eq_refl)
    as (j & Hj & Hrunes).
  rewrite slice_from_length in Hj.
  exists (w + j)%nat. split; [lia|].
  rewrite (runes_cons c t). fold w. cbn [take]. rewrite <- Hrunes.
  assert (slice_to (String c t) (w + j) ≠ "") as Hne.
  { destruct w; [lia | done]. }
  destruct (slice_to (String c t) (w + j)) as [|c' t'] eqn:Hs; [done|].
  rewrite runes_cons, <- Hs.
  rewrite decode_trunc by (fold w; lia). fold w.
  f_equal. f_equal. apply slice_from_to.
Qed.

Lemma runes_encode r t :
  ValidRune r = true → runes (EncodeRune r +:+ t) = r :: runes t.
Proof.
  intros Hr. pose proof (ValidRune_range r Hr) as [Hrange _].
  destruct (EncodeRune_shape r ltac:(lia)) as (c & t' & Henc & _).
  pose proof (decode_encode r t Hr) as Hdec.
  rewrite Henc, string_app_cons in Hdec |- *.
  rewrite runes_cons, Hdec. cbn [fst snd].
  by rewrite <- string_app_cons, <- Henc, slice_from_app.
Qed.

(** ** [strings.Map] *)

Lemma write_runes_cons f c l :
  0 ≤ f c → write_runes f (c :: l) = EncodeRune (f c) +:+ write_runes f l.
Proof.
  intros Hc. unfold write_runes. simpl.
  destruct (Z.leb_spec 0 (f c)); [done | lia].
Qed.

Lemma write_runes_app f l k :
  write_runes f (l ++ k) = write_runes f l +:+ write_runes f k.
Proof.
  induction l as [|c l IH]; [done|]. unfold write_runes in *. simpl.
  rewrite IH. destruct (0 <=? f c); [by rewrite string_app_assoc | done].
Qed.

Lemma write_runes_fmap f g l :
  write_runes f (g <$> l) = write_runes (f ∘ g) l.
Proof.
  induction l as [|c l IH]; [done|]. rewrite fmap_cons.
  unfold write_runes in *. cbn [foldr]. by rewrite IH.
Qed.

Lemma write_runes_ext f g l :
  Forall (λ c, f c = g c) l → write_runes f l = write_runes g l.
Proof.
  induction 1 as [|c l Hc _ IH]; [done|]. unfold write_runes in *.
  cbn [foldr]. by rewrite IH, Hc.
Qed.

Lemma runes_write_runes f l :
  Forall (λ c, ValidRune (f c) = true) l → runes (write_runes f l) = f <$> l.
Proof.
  induction 1 as [|c l Hc _ IH]; [done|].
  pose proof (ValidRune_range _ Hc) as [? _].
  rewrite write_runes_cons by lia. by rewrite runes_encode, IH.
Qed.

(** UTF-8 is a prefix code: when one output of [write_runes] starts
    another, it is the output for an initial segment of the runes. *)
Lemma write_runes_prefix f l1 l2 t :
  (∀ c, ValidRune c = true → 0 ≤ f c < 2 ^ 31) →
  Forall (λ r, ValidRune r = true) l1 → Forall (λ r, ValidRune r = true) l2 →
  write_runes f l2 = write_runes f l1 +:+ t →
  ∃ m, write_runes f (take m l2) = write_runes f l1.
Proof.
  intros Hf Hl1. revert l2 t.
  induction Hl1 as [|r l1 Hr _ IH]; intros l2 t Hl2 Heq; [by exists 0%nat|].
  rewrite write_runes_cons in Heq |- * by (by apply Hf).
  destruct (EncodeRune_shape (f r) (Hf r Hr)) as (a & ta & Har & Hlr).
  destruct Hl2 as [|c l2 Hc Hl2].
  { rewrite Har, string_app_assoc, string_app_cons in Heq. discriminate. }
  rewrite write_runes_cons in Heq by (by apply Hf).
  destruct (EncodeRune_shape (f c) (Hf c Hc)) as (b & tb & Hbc & Hlc).
  rewrite string_app_assoc in Heq.
  assert (b = a) as ->.
  { rewrite Har, Hbc, !string_app_cons in Heq. congruence. }
  apply string_app_inv_length in Heq as [Hcr Hrest]; [|congruence].
  destruct (IH _ _ Hl2 Hrest) as [m Hm].
  exists (S m). cbn [take]. rewrite write_runes_cons by (by apply Hf).
  by rewrite Hcr, Hm.
Qed.

(** ** [strings.ToLower] and [strings.ToUpper] *)

Lemma unicode_ToLower_rune To r :
  lower_table_ok To → ValidRune r = true → 0 ≤ unicode_ToLower To r < 2 ^ 31.
Proof.
  intros Hok Hr. pose proof (ValidRune_range r Hr) as [? _].
  unfold unicode_ToLower, MaxASCII.
  destruct (Z.leb_spec r 0x7F); [|by apply Hok].
  destruct ((65 <=? r) && (r <=? 90)); lia.
Qed.

(** The fast path of [strings.ToLower] agrees with the general one. *)
Lemma ToLower_Map To s : ToLower To s = Map (unicode_ToLower To) s.
Proof.
  unfold ToLower, Map. destruct (isASCII s) eqn:Hs; [|done].
  induction s as [|c t IH]; [done|].
  simpl in Hs. apply andb_true_iff in Hs as [Hc%Z.ltb_lt Ht].
  rewrite runes_ascii by done. unfold RuneSelf in Hc.
  pose proof (byte_of_range c).
  assert (unicode_ToLower To (byte_of c) =
          if (65 <=? byte_of c) && (byte_of c <=? 90)
          then byte_of c + 32 else byte_of c) as Hl.
  { unfold unicode_ToLower, MaxASCII.
    destruct (Z.leb_spec (byte_of c) 0x7F); [done | lia]. }
  rewrite write_runes_cons
    by (rewrite Hl; destruct ((65 <=? byte_of c) && (byte_of c <=? 90)); lia).
  rewrite <- IH, Hl by done. cbn [lower_bytes].
  destruct ((65 <=? byte_of c) && (byte_of c <=? 90)) eqn:Hup.
  - apply andb_true_iff in Hup as [?%Z.leb_le ?%Z.leb_le].
    by rewrite EncodeRune_ascii by lia.
  - by rewrite EncodeRune_ascii, to_byte_of by lia.
Qed.

(** The fast path of [strings.ToUpper] agrees with the general one. *)
Lemma ToUpper_Map To s : ToUpper To s = Map (unicode_ToUpper To) s.
Proof.
  unfold ToUpper, Map. destruct (isASCII s) eqn:Hs; [|done].
  induction s as [|c t IH]; [done|].
  cbn [isASCII] in Hs. apply andb_true_iff in Hs as [Hc%Z.ltb_lt Ht].
  rewrite runes_ascii by done. unfold RuneSelf in Hc.
  pose proof (byte_of_range c).
  assert (unicode_ToUpper To (byte_of c) =
          if (97 <=? byte_of c) && (byte_of c <=? 122)
          then byte_of c - 32 else byte_of c) as Hu.
  { unfold unicode_ToUpper, MaxASCII.
    destruct (Z.leb_spec (byte_of c) 0x7F); [done | lia]. }
  destruct ((97 <=? byte_of c) && (byte_of c <=? 122)) eqn:Hlow.
  - apply andb_true_iff in Hlow as [?%Z.leb_le ?%Z.leb_le].
    rewrite write_runes_cons, <- IH, Hu by (rewrite ?Hu; lia || done).
    cbn [upper_bytes]. rewrite EncodeRune_ascii by lia.
    replace ((97 <=? byte_of c) && (byte_of c <=? 122)) with true
      by (symmetry; apply andb_true_iff; split; apply Z.leb_le; lia).
    done.
  - rewrite write_runes_cons, <- IH, Hu by (rewrite ?Hu; lia || done).
    cbn [upper_bytes]. by rewrite Hlow, EncodeRune_ascii, to_byte_of by lia.
Qed.

Lemma ToLower_empty To : ToLower To "" = "".
Proof. done. Qed.

Lemma ToLower_nonempty To s : lower_table_ok To → s ≠ "" → ToLower To s ≠ "".
Proof.
  intros Hok Hs. destruct s as [|c t]; [done|].
  rewrite ToLower_Map. unfold Map. rewrite runes_cons.
  pose proof (unicode_ToLower_rune To _ Hok (decode_valid (String c t))) as Hr.
  rewrite write_runes_cons by lia.
  destruct (EncodeRune_shape _ Hr) as (a & ta & -> & _). done.
Qed.

Lemma ToLower_ToLower To q :
  Forall (lower_stable To) (runes q) → ToLower To (ToLower To q) = ToLower To q.
Proof.
  intros Hq. rewrite !ToLower_Map. unfold Map.
  rewrite runes_write_runes, write_runes_fmap.
  - apply write_runes_ext. eapply Forall_impl; [exact Hq|]. by intros r [_ ?].
  - eapply Forall_impl; [exact Hq|]. by intros r [? _].
Qed.

Lemma ToLower_ToUpper To q :
  Forall (upper_folds To) (runes q) → ToLower To (ToUpper To q) = ToLower To q.
Proof.
  intros Hq. rewrite ToUpper_Map, !ToLower_Map. unfold Map.
  rewrite runes_write_runes, write_runes_fmap.
  - apply write_runes_ext. eapply Forall_impl; [exact Hq|]. by intros r [_ ?].
  - eapply Forall_impl; [exact Hq|]. by intros r [? _].
Qed.

(** On ASCII the case mappings are a case folding, whatever the table. *)
Lemma ascii_lower_stable To r : 0 ≤ r < 0x80 → lower_stable To r.
Proof.
  intros Hr. unfold lower_stable, unicode_ToLower, ValidRune, MaxRune, MaxASCII.
  split; case_Zcmp.
Qed.

Lemma ascii_upper_folds To r : 0 ≤ r < 0x80 → upper_folds To r.
Proof.
  intros Hr.
  unfold upper_folds, unicode_ToLower, unicode_ToUpper, ValidRune, MaxRune,
    MaxASCII.
  split; case_Zcmp.
Qed.

(** ** The keys of a word *)

Lemma elem_of_prefix_keys To w p :
  p ∈ prefix_keys To w ↔
  ∃ i, (1 ≤ i ≤ String.length w)%nat ∧ p = ToLower To (slice_to w i).
Proof.
  unfold prefix_keys. rewrite list_elem_of_fmap. setoid_rewrite elem_of_seq.
  split; intros (i & ? & ?); exists i; split; done || lia.
Qed.

(** A lower-cased string that is not empty and starts the lower-cased word
    [v] is one of the keys that the prefix loop visits for [v]. *)
Lemma prefix_is_key To x v :
  lower_table_ok To →
  x ≠ "" → HasPrefix (ToLower To v) (ToLower To x) = true →
  ToLower To x ∈ prefix_keys To v.
Proof.
  intros Hok Hx [t Ht]%HasPrefix_app.
  pose proof (ToLower_nonempty To x Hok Hx) as Hne.
  rewrite !ToLower_Map in Ht. unfold Map in Ht.
  apply write_runes_prefix in Ht as [m Hm];
    [|intros; by apply unicode_ToLower_rune|apply runes_valid..].
  destruct (runes_take v m) as (j & Hj & Hrunes).
  apply elem_of_prefix_keys. exists j.
  assert (ToLower To (slice_to v j) = ToLower To x) as Hkey.
  { rewrite !ToLower_Map. unfold Map. by rewrite Hrunes. }
  split; [|done]. split; [|done].
  destruct j; [|lia]. destruct v; simpl in Hkey; by rewrite <- Hkey in Hne.
Qed.

(** In particular a key of another word [u]. *)
Lemma prefix_closed To u v p :
  lower_table_ok To →
  p ∈ prefix_keys To u → HasPrefix (ToLower To v) p = true →
  p ∈ prefix_keys To v.
Proof.
  intros Hok (i & Hi & ->)%elem_of_prefix_keys.
  apply prefix_is_key; [done|]. intros Hs.
  apply (f_equal String.length) in Hs. rewrite slice_to_length in Hs by lia.
  simpl in Hs. lia.
Qed.

(** ** The entries of the built index *)

Lemma elem_of_all_keys To ws p :
  p ∈ all_keys To ws ↔ ∃ w, w ∈ ws ∧ p ∈ prefix_keys To w.
Proof.
  unfold all_keys. rewrite list_elem_of_bind. naive_solver.
Qed.

Lemma elem_of_find_matches To ws p v :
  v ∈ find_matches To ws p ↔ HasPrefix (ToLower To v) p = true ∧ v ∈ ws.
Proof. unfold find_matches. by rewrite list_elem_of_filter. Qed.

Lemma find_matches_sorted To a p :
  StronglySorted String.le (find_matches To (sort_Strings a) p).
Proof.
  eapply StronglySorted_sublist; [apply sublist_filter; apply _|].
  apply sort_Strings_sorted.
Qed.

(** A key visited once has matches without repetition: a word listed twice
    brings two visits of each of its keys. *)
Lemma find_matches_NoDup To ws p :
  lower_table_ok To →
  p ∈ all_keys To ws → occ p (all_keys To ws) = 1%nat →
  NoDup (find_matches To ws p).
Proof.
  intros Hok (u & Hu & Hpu)%elem_of_all_keys Hocc.
  apply NoDup_occ. intros v.
  destruct (decide (v ∈ find_matches To ws p)) as [Hv|Hv];
    [|rewrite occ_not_elem by done; lia].
  apply elem_of_find_matches in Hv as [Hpre Hv].
  etrans; [apply occ_filter; apply _|]. rewrite <- Hocc.
  apply occ_bind. by eapply prefix_closed.
Qed.

(** The built index: a key is stored when it is the lower-cased prefix of an
    input word, and its entry is the sorted input words that match it, each
    once. *)
Lemma tree_entry To words p :
  lower_table_ok To →
  tree (NewStaticSearchTree To words).1 !! p =
  if decide (p ∈ all_keys To (sort_Strings words))
  then Some (nub (find_matches To (sort_Strings words) p))
  else None.
Proof.
  intros Hok. rewrite tree_lookup.
  destruct (decide (p ∈ all_keys To (sort_Strings words))) as [Hp|Hp].
  - pose proof (occ_elem _ _ Hp) as Hocc.
    destruct (occ p (all_keys To (sort_Strings words))) as [|[|n]] eqn:Hn;
      [lia| |done].
    simpl. f_equal. symmetry. by apply nub_id, find_matches_NoDup.
  - by rewrite occ_not_elem.
Qed.

(** Without any assumption on the table: an entry is the list of matches,
    possibly with its repetitions removed. *)
Lemma tree_entry_cases To words p entry :
  tree (NewStaticSearchTree To words).1 !! p = Some entry →
  p ∈ all_keys To (sort_Strings words)
  ∧ (entry = find_matches To (sort_Strings words) p
     ∨ entry = nub (find_matches To (sort_Strings words) p)).
Proof.
  rewrite tree_lookup. intros Hentry. split.
  - destruct (decide (p ∈ all_keys To (sort_Strings words))) as [|Hp]; [done|].
    by rewrite occ_not_elem in Hentry.
  - destruct (occ p (all_keys To (sort_Strings words))) as [|[|n]];
      simplify_eq/=; auto.
Qed.

Lemma elem_of_keys_of_words To words p :
  p ∈ all_keys To (sort_Strings words) ↔
  ∃ w i, w ∈ words ∧ (1 ≤ i ≤ String.length w)%nat
         ∧ p = ToLower To (slice_to w i).
Proof.
  rewrite elem_of_all_keys. setoid_rewrite elem_of_sort_Strings.
  setoid_rewrite elem_of_prefix_keys. naive_solver.
Qed.

(** ** The excerpt of the case table *)

Lemma To_excerpt_ok : lower_table_ok To_excerpt.
Proof.
  intros r [Hr _]%ValidRune_range. unfold To_excerpt, CaseRanges_excerpt, to.
  change (LowerCase =? LowerCase) with true. cbv iota.
  repeat case_match; lia.
Qed.

(** ** The three outcomes of [SearchWithLimit] *)

Lemma SearchWithLimit_cases To sst q L :
  let matches := Search To sst q in
  let n := Z.of_nat (length matches) in
  (n ≤ L ∧ SearchWithLimit To sst q L = Some matches)
  ∨ (0 ≤ L < n ∧ SearchWithLimit To sst q L = Some (take (Z.to_nat L) matches))
  ∨ (L < 0 ∧ SearchWithLimit To sst q L = None).
Proof.
  cbv zeta. unfold SearchWithLimit.
  destruct (Z.leb_spec (Z.of_nat (length (Search To sst q))) L) as [Hle|Hlt];
    [by left | right].
  destruct (Z.leb_spec 0 L) as [H0|H0]; simpl.
  - left. split; [lia|].
    destruct (Z.leb_spec L (Z.of_nat (length (Search To sst q)))); [done | lia].
  - by right.
Qed.

(** * The properties of the specification *)

(** ** Completeness (C1) *)

(** C1, on the input where the program loses a word.  The only word is
    "café", the bytes 63 61 66 C3 A9.  Its prefix of length 4 ends inside
    the two-byte rune é; [strings.ToLower] turns the cut byte C3 into
    U+FFFD (EF BF BD), so the key [build] stores for that prefix is no
    prefix of the lower-cased word: its entry is empty, and the search for
    [lower(w[0:4])] does not contain the word. *)
Lemma completeness_fails_inside_a_rune :
  let w := bytes [0x63; 0x61; 0x66; 0xC3; 0xA9] in
  let index := (NewStaticSearchTree To_excerpt [w]).1 in
  let key := ToLower To_excerpt (slice_to w 4) in
  w ∈ [w] ∧ (1 ≤ 4 ≤ String.length w)%nat
  ∧ key = bytes [0x63; 0x61; 0x66; 0xEF; 0xBF; 0xBD]
  ∧ tree index !! key = Some []
  ∧ Search To_excerpt index key = []
  ∧ w ∉ Search To_excerpt index key.
Proof.
  cbv zeta.
  assert (Search To_excerpt
            (NewStaticSearchTree To_excerpt [bytes [0x63; 0x61; 0x66; 0xC3; 0xA9]]).1
            (ToLower To_excerpt (slice_to (bytes [0x63; 0x61; 0x66; 0xC3; 0xA9]) 4))
          = []) as Hsearch by (vm_compute; reflexivity).
  split; [by left|]. split; [vm_compute; lia|].
  split; [vm_compute; reflexivity|]. split; [vm_compute; reflexivity|].
  split; [exact Hsearch|]. rewrite Hsearch. apply not_elem_of_nil.
Qed.

(** ** The scenario of three words (C2) *)

(** C2, as the program behaves: for ["apple","app","application"] the search
    for "app" returns the three words in ascending order, and the index has
    12 keys (a, ap, app, appl, apple, appli, applic, applica, applicat,
    applicati, applicatio, application). *)
Theorem scenario_apple_app_application (To : Z → Z → Z) :
  let index := (NewStaticSearchTree To ["apple"; "app"; "application"]).1 in
  Search To index "app" = ["app"; "apple"; "application"]
  ∧ Size index = 12.
Proof. split; vm_compute; reflexivity. Qed.

(** C2 as stated fails: the size is not 5. *)
Lemma scenario_size_is_not_5 :
  ¬ (Search To_excerpt
       (NewStaticSearchTree To_excerpt ["apple"; "app"; "application"]).1 "app"
     = ["app"; "apple"; "application"]
     ∧ Size (NewStaticSearchTree To_excerpt ["apple"; "app"; "application"]).1 = 5).
Proof. intros [_ Hsize]. vm_compute in Hsize. discriminate. Qed.

(** ** Truncation (C3) *)

(** C3: for a limit [L >= 0], [SearchWithLimit] returns the first
    [min(L, n)] elements of [Search]'s result, [n] being its length; for
    [L = 0] that is the empty sequence, and for [L] above [n] the whole
    result. *)
Theorem SearchWithLimit_truncates To sst q L :
  0 ≤ L →
  let matches := Search To sst q in
  let n := Z.of_nat (length matches) in
  SearchWithLimit To sst q L = Some (take (Z.to_nat (Z.min L n)) matches)
  ∧ (L = 0 → SearchWithLimit To sst q L = Some [])
  ∧ (n < L → SearchWithLimit To sst q L = Some matches).
Proof.
  intros HL matches n.
  assert (SearchWithLimit To sst q L = Some (take (Z.to_nat (Z.min L n)) matches))
    as Heq.
  { destruct (SearchWithLimit_cases To sst q L) as [[Hn ->]|[[Hn ->]|[Hn _]]];
      fold matches n in Hn; [| |lia].
    - rewrite Z.min_r by done. unfold n. rewrite Nat2Z.id. by rewrite firstn_all.
    - by rewrite Z.min_l by lia. }
  split; [done|]. split.
  - intros ->. rewrite Heq, Z.min_l by lia. done.
  - intros Hn. rewrite Heq, Z.min_r by lia. unfold n.
    rewrite Nat2Z.id. by rewrite firstn_all.
Qed.

Lemma SearchWithLimit_truncates_witness :
  0 ≤ 2
  ∧ SearchWithLimit To_excerpt
      (NewStaticSearchTree To_excerpt
         ["app"; "apple"; "application"; "apply"; "approach"]).1 "app" 2
    = Some ["app"; "apple"].
Proof.
  split; [lia|].
  exact (proj1 (SearchWithLimit_truncates To_excerpt
    (NewStaticSearchTree To_excerpt
       ["app"; "apple"; "application"; "apply"; "approach"]).1 "app" 2
    ltac:(lia))).
Defined.

(** ** No word twice in an entry (C4) *)

(** C4: no entry of the built index holds a word twice; in particular, when
    a word is listed more than once in the input, every entry that contains
    it contains it exactly once. *)
Theorem entries_have_no_duplicates To words p entry :
  lower_table_ok To →
  tree (NewStaticSearchTree To words).1 !! p = Some entry →
  NoDup entry
  ∧ ∀ w, (1 < occ w words)%nat → w ∈ entry → occ w entry = 1%nat.
Proof.
  intros Hok. rewrite tree_entry by done. case_decide; [|done].
  intros [= <-]. split; [apply nub_NoDup|].
  intros w _ Hw%occ_elem.
  pose proof (occ_NoDup w _ (nub_NoDup (find_matches To (sort_Strings words) p))).
  lia.
Qed.

Lemma entries_have_no_duplicates_witness :
  tree (NewStaticSearchTree To_excerpt ["apple"; "apple"; "banana"; "apple"]).1 !! "app"
  = Some ["apple"]
  ∧ (1 < occ "apple" ["apple"; "apple"; "banana"; "apple"])%nat
  ∧ NoDup ["apple"]
  ∧ occ "apple" ["apple"] = 1%nat.
Proof.
  assert (tree (NewStaticSearchTree To_excerpt
                  ["apple"; "apple"; "banana"; "apple"]).1 !! "app"
          = Some ["apple"]) as Hentry by (vm_compute; reflexivity).
  assert (1 < occ "apple" ["apple"; "apple"; "banana"; "apple"])%nat as Hocc
    by (vm_compute; lia).
  destruct (entries_have_no_duplicates To_excerpt
              ["apple"; "apple"; "banana"; "apple"] "app" ["apple"]
              To_excerpt_ok Hentry) as [Hnd Honce].
  split; [exact Hentry|]. split; [exact Hocc|]. split; [exact Hnd|].
  apply Honce; [exact Hocc | by left].
Defined.

(** ** The index depends on the set of words only (C5) *)

(** C5: two input lists with the same words, in any order and with any
    multiplicities, give the same index: the same keys with the same
    entries. *)
Theorem build_order_independent To l1 l2 :
  lower_table_ok To →
  (∀ w, w ∈ l1 ↔ w ∈ l2) →
  (NewStaticSearchTree To l1).1 = (NewStaticSearchTree To l2).1.
Proof.
  intros Hok Hsame.
  assert (tree (NewStaticSearchTree To l1).1 = tree (NewStaticSearchTree To l2).1)
    as Htree.
  { apply map_eq. intros p. rewrite !tree_entry by done.
    assert (p ∈ all_keys To (sort_Strings l1) ↔ p ∈ all_keys To (sort_Strings l2))
      as Hkeys.
    { rewrite !elem_of_keys_of_words. by setoid_rewrite Hsame. }
    repeat case_decide; try done; try tauto.
    f_equal. apply (Sorted_unique String.le).
    - apply StronglySorted_Sorted, nub_sorted, find_matches_sorted.
    - apply StronglySorted_Sorted, nub_sorted, find_matches_sorted.
    - apply NoDup_Permutation; [apply nub_NoDup..|].
      intros w. rewrite !nub_elem, !elem_of_find_matches, !elem_of_sort_Strings.
      by rewrite Hsame. }
  destruct (NewStaticSearchTree To l1).1, (NewStaticSearchTree To l2).1.
  simpl in Htree. by rewrite Htree.
Qed.

Lemma build_order_independent_witness :
  (∀ w, w ∈ ["banana"; "app"; "apple"; "app"] ↔ w ∈ ["apple"; "banana"; "app"])
  ∧ (NewStaticSearchTree To_excerpt ["banana"; "app"; "apple"; "app"]).1
    = (NewStaticSearchTree To_excerpt ["apple"; "banana"; "app"]).1.
Proof.
  assert (∀ w, w ∈ ["banana"; "app"; "apple"; "app"] ↔ w ∈ ["apple"; "banana"; "app"])
    as Hsame by (intros w; rewrite !elem_of_cons, !elem_of_nil; tauto).
  split; [exact Hsame|].
  exact (build_order_independent To_excerpt _ _ To_excerpt_ok Hsame).
Defined.

(** ** Case of the query (C6) *)

(** C6 as stated fails.  The only word, and the query, is "ı" (U+0131,
    the bytes C4 B1).  It is its own lower case, so [Search] finds it; its
    upper case is "I", whose lower case is "i", which is no key. *)
Lemma Search_upper_case_of_dotless_i :
  let q := bytes [0xC4; 0xB1] in
  let index := (NewStaticSearchTree To_excerpt [q]).1 in
  ToUpper To_excerpt q = "I"
  ∧ Search To_excerpt index q = [q]
  ∧ Search To_excerpt index (ToUpper To_excerpt q) = []
  ∧ Search To_excerpt index q ≠ Search To_excerpt index (ToUpper To_excerpt q).
Proof.
  cbv zeta. split; [vm_compute; reflexivity|].
  split; [vm_compute; reflexivity|]. split; [vm_compute; reflexivity|].
  vm_compute. discriminate.
Qed.

(** C6, amended: on every index, [Search] returns the same sequence for a
    query, its upper case and its lower case, provided the case mappings act
    as a case folding on each rune [r] of the query: [lower(upper(r))] and
    [lower(lower(r))] are both [lower(r)].  Every query made of ASCII bytes is
    such a query. *)
Theorem Search_case_insensitive To sst q :
  Forall (λ r, upper_folds To r ∧ lower_stable To r) (runes q)
  ∨ isASCII q = true →
  Search To sst (ToUpper To q) = Search To sst q
  ∧ Search To sst (ToLower To q) = Search To sst q.
Proof.
  intros Hq.
  assert (Forall (λ r, upper_folds To r ∧ lower_stable To r) (runes q)) as Hfold.
  { destruct Hq as [Hq|Hq]; [done|].
    eapply Forall_impl; [by apply runes_isASCII|].
    intros r Hr. split; [by apply ascii_upper_folds | by apply ascii_lower_stable]. }
  unfold Search. rewrite ToLower_ToUpper, ToLower_ToLower; [done|..];
    (eapply Forall_impl; [exact Hfold|]); by intros r [? ?].
Qed.

(** The query "É" (U+00C9, the bytes C3 89) on an index that holds "école"
    and "Eve". *)
Lemma Search_case_insensitive_witness :
  let q := bytes [0xC3; 0x89] in
  let index :=
    (NewStaticSearchTree To_excerpt
       [bytes [0xC3; 0xA9; 0x63; 0x6F; 0x6C; 0x65]; "Eve"]).1 in
  Forall (λ r, upper_folds To_excerpt r ∧ lower_stable To_excerpt r) (runes q)
  ∧ Search To_excerpt index (ToUpper To_excerpt q) = Search To_excerpt index q
  ∧ Search To_excerpt index (ToLower To_excerpt q) = Search To_excerpt index q.
Proof.
  cbv zeta.
  assert (Forall (λ r, upper_folds To_excerpt r ∧ lower_stable To_excerpt r)
                 (runes (bytes [0xC3; 0x89]))) as Hfold.
  { replace (runes (bytes [0xC3; 0x89])) with [0xC9] by (vm_compute; reflexivity).
    repeat constructor; vm_compute; reflexivity. }
  split; [exact Hfold|].
  exact (Search_case_insensitive To_excerpt _ _ (or_introl Hfold)).
Defined.

(** ** Ascending order (C7) *)

(** C7: every stored entry is in ascending order for Go's order on strings
    (bytewise lexicographic, the order of [sort.Strings]), and so is every
    result of [Search]. *)
Theorem Search_ascending To words :
  (∀ p entry, tree (NewStaticSearchTree To words).1 !! p = Some entry →
              StronglySorted String.le entry)
  ∧ ∀ q, StronglySorted String.le (Search To (NewStaticSearchTree To words).1 q).
Proof.
  assert (∀ p entry, tree (NewStaticSearchTree To words).1 !! p = Some entry →
                     StronglySorted String.le entry) as Hentries.
  { intros p entry [_ [-> | ->]]%tree_entry_cases.
    - apply find_matches_sorted.
    - apply nub_sorted, find_matches_sorted. }
  split; [done|]. intros q. unfold Search.
  destruct (tree (NewStaticSearchTree To words).1 !! ToLower To q) eqn:Hq.
  - by eapply Hentries.
  - constructor.
Qed.

Lemma Search_ascending_witness :
  StronglySorted String.le
    (Search To_excerpt
       (NewStaticSearchTree To_excerpt ["banana"; "apple"; "Apple"; "app"]).1 "A").
Proof.
  exact (proj2 (Search_ascending To_excerpt ["banana"; "apple"; "Apple"; "app"]) "A").
Defined.

(** ** The empty query (C8) *)

(** C8: whatever the words, the empty string is not a key of the built
    index, and [Search("")] returns the empty sequence. *)
Theorem Search_empty_query To words :
  lower_table_ok To →
  tree (NewStaticSearchTree To words).1 !! "" = None
  ∧ Search To (NewStaticSearchTree To words).1 "" = [].
Proof.
  intros Hok.
  assert (tree (NewStaticSearchTree To words).1 !! "" = None) as Hnone.
  { rewrite tree_entry by done. case_decide as Hkey; [|done].
    apply elem_of_keys_of_words in Hkey as (w & i & _ & Hi & Hkey).
    symmetry in Hkey. apply ToLower_nonempty in Hkey; [done..|].
    intros Hs. apply (f_equal String.length) in Hs.
    rewrite slice_to_length in Hs by lia. simpl in Hs. lia. }
  split; [done|]. unfold Search. by rewrite ToLower_empty, Hnone.
Qed.

Lemma Search_empty_query_witness :
  tree (NewStaticSearchTree To_excerpt ["apple"; ""; "Banana"]).1 !! "" = None
  ∧ Search To_excerpt (NewStaticSearchTree To_excerpt ["apple"; ""; "Banana"]).1 "" = [].
Proof.
  exact (Search_empty_query To_excerpt ["apple"; ""; "Banana"] To_excerpt_ok).
Defined.

(** ** The caller's slice is sorted in place (C9) *)

(** C9: when [NewStaticSearchTree] returns, the slice the caller passed
    holds the same words in ascending order; it is left as it was only when
    it was sorted already. *)
Theorem build_sorts_callers_slice To words :
  (NewStaticSearchTree To words).2 = sort_Strings words
  ∧ StronglySorted String.le (NewStaticSearchTree To words).2
  ∧ (NewStaticSearchTree To words).2 ≡ₚ words
  ∧ (¬ StronglySorted String.le words → (NewStaticSearchTree To words).2 ≠ words).
Proof.
  assert ((NewStaticSearchTree To words).2 = sort_Strings words) as -> by done.
  split; [done|]. split; [apply sort_Strings_sorted|].
  split; [apply sort_Strings_perm|].
  intros Hunsorted Heq. apply Hunsorted. rewrite <- Heq.
  apply sort_Strings_sorted.
Qed.

Lemma build_sorts_callers_slice_witness :
  (NewStaticSearchTree To_excerpt ["cat"; "car"; "Dog"; "apple"]).2
  = ["Dog"; "apple"; "car"; "cat"]
  ∧ (NewStaticSearchTree To_excerpt ["cat"; "car"; "Dog"; "apple"]).2
    ≠ ["cat"; "car"; "Dog"; "apple"].
Proof.
  destruct (build_sorts_callers_slice To_excerpt ["cat"; "car"; "Dog"; "apple"])
    as (Heq & _ & _ & _).
  split; [rewrite Heq; vm_compute; reflexivity|].
  rewrite Heq. vm_compute. discriminate.
Defined.

(** ** The slice expression of [SearchWithLimit] (C10) *)

(** C10: with [limit >= 0] the slice expression [matches[:limit]] is within
    bounds and the call returns; it is evaluated only when
    [limit < len(matches)]; with [limit < 0] the bound is invalid whatever
    [Search] returned, and the call panics. *)
Theorem SearchWithLimit_in_bounds To sst q L :
  (0 ≤ L → ∃ r, SearchWithLimit To sst q L = Some r)
  ∧ (∀ r, SearchWithLimit To sst q L = Some r → r ≠ Search To sst q →
          0 ≤ L < Z.of_nat (length (Search To sst q)))
  ∧ (L < 0 → SearchWithLimit To sst q L = None).
Proof.
  destruct (SearchWithLimit_cases To sst q L) as [[Hn Heq]|[[Hn Heq]|[Hn Heq]]];
    rewrite Heq; (split; [|split]); try lia; eauto; try done.
  intros r [= <-] Hr. done.
Qed.

Lemma SearchWithLimit_in_bounds_witness :
  (∃ r, SearchWithLimit To_excerpt (NewStaticSearchTree To_excerpt ["app"; "apple"]).1 "app" 1
        = Some r)
  ∧ SearchWithLimit To_excerpt (NewStaticSearchTree To_excerpt ["app"; "apple"]).1 "app" (-1)
    = None.
Proof.
  split.
  - apply (proj1 (SearchWithLimit_in_bounds To_excerpt
      (NewStaticSearchTree To_excerpt ["app"; "apple"]).1 "app" 1)). lia.
  - apply (proj2 (proj2 (SearchWithLimit_in_bounds To_excerpt
      (NewStaticSearchTree To_excerpt ["app"; "apple"]).1 "app" (-1)))). lia.
Defined.

(** ** Completeness on rune boundaries *)

(** Completeness, as far as the program has it: a word of the input is found
    under each of its prefixes [w[0:k]] that ends where a rune of [w] ends,
    when lower-casing is stable on the runes of the prefix.  Every prefix
    made of ASCII bytes is such a prefix. *)
Theorem completeness_on_rune_boundaries To words w k :
  w ∈ words → (1 ≤ k ≤ String.length w)%nat →
  (runes w = runes (slice_to w k) ++ runes (slice_from w k)
   ∧ Forall (lower_stable To) (runes (slice_to w k)))
  ∨ isASCII (slice_to w k) = true →
  w ∈ Search To (NewStaticSearchTree To words).1 (ToLower To (slice_to w k)).
Proof.
  intros Hw Hk Hcut.
  assert (runes w = runes (slice_to w k) ++ runes (slice_from w k)
          ∧ Forall (lower_stable To) (runes (slice_to w k))) as [Hrunes Hstable].
  { destruct Hcut as [Hcut|Hascii]; [done|]. split.
    - by rewrite <- runes_app_ascii, slice_to_from.
    - eapply Forall_impl; [by apply runes_isASCII|].
      intros r Hr. by apply ascii_lower_stable. }
  unfold Search. rewrite ToLower_ToLower by done.
  set (p := ToLower To (slice_to w k)).
  assert (p ∈ all_keys To (sort_Strings words)) as Hp.
  { apply elem_of_keys_of_words. by exists w, k. }
  assert (w ∈ find_matches To (sort_Strings words) p) as Hmatch.
  { apply elem_of_find_matches. split; [|by apply elem_of_sort_Strings].
    apply HasPrefix_app. exists (Map (unicode_ToLower To) (slice_from w k)).
    unfold p. rewrite !ToLower_Map. unfold Map.
    by rewrite Hrunes, write_runes_app. }
  rewrite tree_lookup. apply occ_elem in Hp.
  destruct (occ p (all_keys To (sort_Strings words))) as [|[|n]]; [lia|..]; simpl.
  - done.
  - by apply nub_elem.
Qed.

(** The word "café" under its whole self, and "Apple" under "App". *)
Lemma completeness_on_rune_boundaries_witness :
  let w := bytes [0x63; 0x61; 0x66; 0xC3; 0xA9] in
  (w ∈ Search To_excerpt (NewStaticSearchTree To_excerpt ["Apple"; w]).1
         (ToLower To_excerpt (slice_to w 5)))
  ∧ "Apple" ∈ Search To_excerpt (NewStaticSearchTree To_excerpt ["Apple"; w]).1
                (ToLower To_excerpt (slice_to "Apple" 3)).
Proof.
  cbv zeta. split.
  - apply (completeness_on_rune_boundaries To_excerpt);
      [right; left; reflexivity | vm_compute; lia |].
    left. split; [vm_compute; reflexivity|].
    replace (runes (slice_to (bytes [0x63; 0x61; 0x66; 0xC3; 0xA9]) 5))
      with [0x63; 0x61; 0x66; 0xE9] by (vm_compute; reflexivity).
    repeat constructor; vm_compute; reflexivity.
  - apply (completeness_on_rune_boundaries To_excerpt);
      [left | vm_compute; lia | right; reflexivity].
Defined.

(** ** What [Search] returns *)

(** On the built index, the search for a query that is not empty returns
    exactly the words of the input whose lower case starts with the lower case
    of the query. *)
Theorem Search_exact To words q w :
  lower_table_ok To → q ≠ "" →
  w ∈ Search To (NewStaticSearchTree To words).1 q
  ↔ w ∈ words ∧ HasPrefix (ToLower To w) (ToLower To q) = true.
Proof.
  intros Hok Hq. unfold Search. rewrite tree_entry by done. split.
  - case_decide; [|by intros ?%elem_of_nil].
    rewrite nub_elem, elem_of_find_matches, elem_of_sort_Strings. tauto.
  - intros [Hw Hpre]. rewrite decide_True.
    + rewrite nub_elem, elem_of_find_matches, elem_of_sort_Strings. tauto.
    + apply elem_of_all_keys. exists w.
      split; [by apply elem_of_sort_Strings | by apply prefix_is_key].
Qed.

Lemma Search_exact_witness :
  "Apple" ∈ Search To_excerpt (NewStaticSearchTree To_excerpt ["BANANA"; "Apple"]).1 "aP"
  ∧ "BANANA" ∉ Search To_excerpt (NewStaticSearchTree To_excerpt ["BANANA"; "Apple"]).1 "aP".
Proof.
  assert ("aP" ≠ "") as Hq by discriminate.
  split.
  - apply (Search_exact To_excerpt ["BANANA"; "Apple"] "aP" "Apple" To_excerpt_ok Hq).
    split; [right; left | reflexivity].
  - intros [_ Hpre]%(Search_exact To_excerpt ["BANANA"; "Apple"] "aP" "BANANA"
                       To_excerpt_ok Hq).
    vm_compute in Hpre. discriminate.
Defined.

(** * Further properties of the program *)

(** ** [mergeDeduplicate] and [filter] *)

(** A string that does not occur in the list may be added to [seen]. *)
Lemma dedup_from_absent seen l x :
  x ∉ l → dedup_from ({[ x ]} ∪ seen) l = dedup_from seen l.
Proof.
  revert seen. induction l as [|y l IH]; intros seen Hx; [done|].
  apply not_elem_of_cons in Hx as [Hxy Hxl]. simpl.
  destruct (decide (y ∈ seen)) as [Hy|Hy].
  - rewrite decide_True by (apply elem_of_union; by right). by apply IH.
  - rewrite decide_False.
    + f_equal. rewrite (assoc_L (∪)), (comm_L (∪) {[y]}), <- (assoc_L (∪)).
      by apply IH.
    + rewrite elem_of_union, elem_of_singleton. intros [?|?]; congruence.
Qed.

Lemma dedup_from_filter (P : string → Prop) `{∀ y, Decision (P y)} seen l :
  dedup_from seen (filter P l) = filter P (dedup_from seen l).
Proof.
  revert seen. induction l as [|x l IH]; intros seen; [done|].
  rewrite filter_cons. destruct (decide (P x)) as [HP|HP]; simpl.
  - destruct (decide (x ∈ seen)); [done|].
    rewrite filter_cons, decide_True by done. by rewrite IH.
  - destruct (decide (x ∈ seen)); [done|].
    rewrite filter_cons, decide_False by done. rewrite <- IH.
    symmetry. apply dedup_from_absent. rewrite list_elem_of_filter. tauto.
Qed.

Lemma nub_filter (P : string → Prop) `{∀ y, Decision (P y)} l :
  nub (filter P l) = filter P (nub l).
Proof. apply dedup_from_filter. Qed.

Lemma filter_sublist_impl (P Q : string → Prop)
    `{∀ y, Decision (P y)} `{∀ y, Decision (Q y)} l :
  (∀ x, P x → Q x) → filter P l `sublist_of` filter Q l.
Proof.
  intros HPQ. induction l as [|x l IH]; [done|].
  rewrite !filter_cons. destruct (decide (P x)) as [HP|HP].
  - rewrite decide_True by auto. by apply sublist_skip.
  - destruct (decide (Q x)); [apply sublist_cons|]; apply IH.
Qed.

(** ** [mergeDeduplicate] on any two slices *)




(** ** [GetAllPrefixes] and [Size] *)

Lemma foldl_snoc (order acc : list string) :
  foldl (λ prefixes prefix, prefixes ++ [prefix]) acc order = acc ++ order.
Proof.
  revert acc. induction order as [|x order IH]; intros acc; simpl.
  - by rewrite app_nil_r.
  - by rewrite IH, <- app_assoc.
Qed.

Lemma GetAllPrefixes_from_eq order : GetAllPrefixes_from order = sort_Strings order.
Proof. unfold GetAllPrefixes_from. by rewrite foldl_snoc. Qed.

Lemma sort_Strings_unique a b : a ≡ₚ b → sort_Strings a = sort_Strings b.
Proof.
  intros Hab. apply (Sorted_unique String.le).
  - apply StronglySorted_Sorted, sort_Strings_sorted.
  - apply StronglySorted_Sorted, sort_Strings_sorted.
  - by rewrite !sort_Strings_perm.
Qed.

Lemma elem_of_GetAllPrefixes sst p :
  p ∈ GetAllPrefixes sst ↔ is_Some (tree sst !! p).
Proof.
  unfold GetAllPrefixes. rewrite GetAllPrefixes_from_eq, elem_of_sort_Strings.
  rewrite list_elem_of_fmap. split.
  - intros ([k v] & -> & Hkv%elem_of_map_to_list). by exists v.
  - intros [v Hv]. exists (p, v). split; [done|]. by apply elem_of_map_to_list.
Qed.

(** Whatever the order in which the map is traversed, [GetAllPrefixes]
    returns the same slice: the keys of the index, each once, in ascending
    order; its length is [Size]. *)
Theorem GetAllPrefixes_sorted_keys sst order :
  order ≡ₚ (map_to_list (tree sst)).*1 →
  GetAllPrefixes_from order = GetAllPrefixes sst
  ∧ StronglySorted String.le (GetAllPrefixes sst)
  ∧ NoDup (GetAllPrefixes sst)
  ∧ (∀ p, p ∈ GetAllPrefixes sst ↔ is_Some (tree sst !! p))
  ∧ Z.of_nat (length (GetAllPrefixes sst)) = Size sst.
Proof.
  intros Hperm. split; [|split; [|split; [|split]]].
  - unfold GetAllPrefixes. rewrite !GetAllPrefixes_from_eq.
    by apply sort_Strings_unique.
  - unfold GetAllPrefixes. rewrite GetAllPrefixes_from_eq.
    apply sort_Strings_sorted.
  - unfold GetAllPrefixes. rewrite GetAllPrefixes_from_eq, sort_Strings_perm.
    apply NoDup_fst_map_to_list.
  - apply elem_of_GetAllPrefixes.
  - unfold GetAllPrefixes, Size. rewrite GetAllPrefixes_from_eq, sort_Strings_perm.
    by rewrite length_fmap, length_map_to_list.
Qed.

Lemma GetAllPrefixes_sorted_keys_witness :
  let sst := {| tree := {[ "b" := ["b"]; "a" := ["a"] ]} |} in
  GetAllPrefixes_from ["b"; "a"] = GetAllPrefixes sst
  ∧ StronglySorted String.le (GetAllPrefixes sst)
  ∧ NoDup (GetAllPrefixes sst)
  ∧ (∀ p, p ∈ GetAllPrefixes sst ↔ is_Some (tree sst !! p))
  ∧ Z.of_nat (length (GetAllPrefixes sst)) = Size sst.
Proof.
  intros sst. apply (GetAllPrefixes_sorted_keys sst ["b"; "a"]).
  vm_compute. apply perm_swap.
Defined.

(** ** The keys of a built index *)

Lemma tree_is_Some To words p :
  is_Some (tree (NewStaticSearchTree To words).1 !! p)
  ↔ p ∈ all_keys To (sort_Strings words).
Proof.
  rewrite tree_lookup. split.
  - intros [e He]. destruct (decide (p ∈ all_keys To (sort_Strings words))); [done|].
    by rewrite occ_not_elem in He.
  - intros Hp%occ_elem.
    destruct (occ p (all_keys To (sort_Strings words))) as [|[|n]]; [lia|done..].
Qed.

(** The keys of a built index are the lower-cased byte prefixes
    [strings.ToLower(w[:i])], [1 <= i <= len(w)], of the input words, and
    nothing else. *)
Theorem GetAllPrefixes_built To words p :
  p ∈ GetAllPrefixes (NewStaticSearchTree To words).1
  ↔ ∃ w i, w ∈ words ∧ (1 ≤ i ≤ String.length w)%nat
           ∧ p = ToLower To (slice_to w i).
Proof.
  by rewrite elem_of_GetAllPrefixes, tree_is_Some, elem_of_keys_of_words.
Qed.

Lemma all_keys_length To ws :
  length (all_keys To ws) = sum_list (String.length <$> ws).
Proof.
  unfold all_keys. induction ws as [|w ws IH]; [done|].
  rewrite bind_cons, length_app, IH. unfold prefix_keys.
  by rewrite length_fmap, length_seq.
Qed.

Lemma sum_list_perm (l k : list nat) : l ≡ₚ k → sum_list l = sum_list k.
Proof. induction 1; simpl; lia. Qed.

Lemma keys_of_tree To words :
  (map_to_list (tree (NewStaticSearchTree To words).1)).*1
  ⊆+ all_keys To (sort_Strings words).
Proof.
  apply NoDup_submseteq; [apply NoDup_fst_map_to_list|].
  intros p ([k v] & -> & Hkv%elem_of_map_to_list)%list_elem_of_fmap.
  apply tree_is_Some. by exists v.
Qed.

(** The size of a built index is at most the total number of bytes of the
    input words, and it is zero exactly when every input word is empty (in
    particular for an empty input). *)
Theorem Size_bounds To words :
  0 ≤ Size (NewStaticSearchTree To words).1
    ≤ Z.of_nat (sum_list (String.length <$> words))
  ∧ (Size (NewStaticSearchTree To words).1 = 0 ↔ ∀ w, w ∈ words → w = "").
Proof.
  split.
  - split; [unfold Size; lia|]. unfold Size.
    rewrite <- length_map_to_list, <- (length_fmap fst).
    rewrite (sum_list_perm _ (String.length <$> sort_Strings words))
      by (by rewrite sort_Strings_perm).
    rewrite <- (all_keys_length To). apply inj_le, submseteq_length, keys_of_tree.
  - unfold Size. rewrite <- Nat2Z.inj_0, Nat2Z.inj_iff, map_size_empty_iff.
    split.
    + intros Hempty w Hw. destruct w as [|c t]; [done|]. exfalso.
      assert (is_Some (tree (NewStaticSearchTree To words).1
                       !! ToLower To (slice_to (String c t) 1))) as [e He].
      { apply tree_is_Some, elem_of_keys_of_words.
        exists (String c t), 1%nat. simpl. split; [done|]. split; [lia|done]. }
      by rewrite Hempty, lookup_empty in He.
    + intros Hall. apply map_empty. intros p.
      apply eq_None_not_Some. rewrite tree_is_Some, elem_of_keys_of_words.
      intros (w & i & Hw & Hi & _). rewrite (Hall w Hw) in Hi. simpl in Hi. lia.
Qed.

(** ** Words and queries of ASCII bytes *)

Lemma ToLower_ascii To s : isASCII s = true → ToLower To s = lower_bytes s.
Proof. intros Hs. unfold ToLower. by rewrite Hs. Qed.

Lemma lower_bytes_length s : String.length (lower_bytes s) = String.length s.
Proof. induction s as [|c t IH]; simpl; by rewrite ?IH. Qed.

Lemma lower_bytes_slice_to s i :
  lower_bytes (slice_to s i) = slice_to (lower_bytes s) i.
Proof.
  revert s. induction i as [|i IH]; intros [|c t]; simpl; try done.
  by rewrite IH.
Qed.

Lemma isASCII_slice_to s i : isASCII s = true → isASCII (slice_to s i) = true.
Proof.
  revert s. induction i as [|i IH]; intros [|c t]; simpl; try done.
  intros [Hc Ht]%andb_true_iff. by rewrite Hc, IH.
Qed.

Lemma lower_byte_range b :
  0 ≤ b < 0x80 →
  0 ≤ (if (65 <=? b) && (b <=? 90) then b + 32 else b) < 0x80
  ∧ ((65 <=? (if (65 <=? b) && (b <=? 90) then b + 32 else b))
     && ((if (65 <=? b) && (b <=? 90) then b + 32 else b) <=? 90)) = false.
Proof. intros Hb. case_Zcmp. Qed.

Lemma isASCII_lower_bytes s :
  isASCII s = true
  → isASCII (lower_bytes s) = true ∧ lower_bytes (lower_bytes s) = lower_bytes s.
Proof.
  induction s as [|c t IH]; [done|]. simpl.
  intros [Hc%Z.ltb_lt Ht]%andb_true_iff. destruct (IH Ht) as [IH1 IH2].
  pose proof (byte_of_range c) as Hr.
  destruct (lower_byte_range (byte_of c)) as [Hlow Hup]; [unfold RuneSelf in Hc; lia|].
  destruct ((65 <=? byte_of c) && (byte_of c <=? 90)) eqn:Hcase.
  - rewrite byte_of_to, Z.mod_small by lia. rewrite Hup, IH1, IH2.
    split; [|done]. apply andb_true_iff. split; [|done].
    apply Z.ltb_lt. unfold RuneSelf. lia.
  - rewrite Hcase, IH1, IH2. split; [|done].
    apply andb_true_iff. split; [|done]. by apply Z.ltb_lt.
Qed.

Lemma HasPrefix_slice_to s i : HasPrefix s (slice_to s i) = true.
Proof. apply HasPrefix_app. exists (slice_from s i). by rewrite slice_to_from. Qed.

Lemma HasPrefix_trans s p q :
  HasPrefix s p = true → HasPrefix p q = true → HasPrefix s q = true.
Proof.
  intros [t ->]%HasPrefix_app [u ->]%HasPrefix_app.
  apply HasPrefix_app. exists (u +:+ t). apply string_app_assoc.
Qed.

(** The key of an ASCII word for its first [i] bytes. *)
Lemma ascii_key To w i :
  isASCII w = true →
  ToLower To (slice_to w i) = slice_to (lower_bytes w) i
  ∧ HasPrefix (ToLower To w) (ToLower To (slice_to w i)) = true.
Proof.
  intros Hw.
  rewrite !ToLower_ascii, lower_bytes_slice_to by (done || by apply isASCII_slice_to).
  split; [done|]. apply HasPrefix_slice_to.
Qed.

Lemma sort_Strings_singleton w : sort_Strings [w] = [w].
Proof. done. Qed.

Lemma prefix_keys_ascii_NoDup To w : isASCII w = true → NoDup (prefix_keys To w).
Proof.
  intros Hw. unfold prefix_keys. apply NoDup_fmap_2_strong; [|apply NoDup_seq].
  intros i j [Hi1 Hi2]%elem_of_seq [Hj1 Hj2]%elem_of_seq Heq.
  rewrite !(proj1 (ascii_key To w _ Hw)) in Heq.
  apply (f_equal String.length) in Heq.
  rewrite !slice_to_length in Heq by (rewrite lower_bytes_length; lia). done.
Qed.

(** An index built from one ASCII word has one key for each of the word's
    prefixes, and the search for any of these prefixes returns the word
    alone. *)
Theorem single_ascii_word To w :
  isASCII w = true →
  Size (NewStaticSearchTree To [w]).1 = Z.of_nat (String.length w)
  ∧ ∀ k, (1 ≤ k ≤ String.length w)%nat →
         Search To (NewStaticSearchTree To [w]).1 (slice_to w k) = [w].
Proof.
  intros Hw. pose proof (prefix_keys_ascii_NoDup To w Hw) as Hnd.
  assert (all_keys To (sort_Strings [w]) = prefix_keys To w) as Hkeys.
  { rewrite sort_Strings_singleton. unfold all_keys. simpl. apply app_nil_r. }
  split.
  - unfold Size. f_equal.
    rewrite <- length_map_to_list, <- (length_fmap fst).
    transitivity (length (prefix_keys To w));
      [|unfold prefix_keys; by rewrite length_fmap, length_seq].
    apply Permutation_length, NoDup_Permutation;
      [apply NoDup_fst_map_to_list|done|].
    intros p. rewrite <- Hkeys, <- tree_is_Some, list_elem_of_fmap. split.
    + intros ([k v] & -> & Hkv%elem_of_map_to_list). by exists v.
    + intros [v Hv]. exists (p, v). split; [done|]. by apply elem_of_map_to_list.
  - intros k Hk. unfold Search. rewrite tree_lookup, Hkeys.
    assert (ToLower To (slice_to w k) ∈ prefix_keys To w) as Hin.
    { apply elem_of_prefix_keys. by exists k. }
    pose proof (occ_elem _ _ Hin) as H1.
    pose proof (occ_NoDup (ToLower To (slice_to w k)) _ Hnd) as H2.
    replace (occ (ToLower To (slice_to w k)) (prefix_keys To w)) with 1%nat by lia.
    simpl. rewrite sort_Strings_singleton. unfold find_matches.
    rewrite filter_cons, decide_True by apply (ascii_key To w k Hw). done.
Qed.

Lemma single_ascii_word_witness :
  Size (NewStaticSearchTree To_excerpt ["Hello"]).1 = Z.of_nat (String.length "Hello")
  ∧ ∀ k, (1 ≤ k ≤ String.length "Hello")%nat →
         Search To_excerpt (NewStaticSearchTree To_excerpt ["Hello"]).1
                (slice_to "Hello" k) = ["Hello"].
Proof. apply single_ascii_word. vm_compute. reflexivity. Defined.

(** When all input words are ASCII, no stored entry is empty, and the search
    for a stored key returns its entry. *)
Theorem ascii_entries_nonempty To words p entry :
  Forall (λ w, isASCII w = true) words →
  tree (NewStaticSearchTree To words).1 !! p = Some entry →
  entry ≠ [] ∧ Search To (NewStaticSearchTree To words).1 p = entry.
Proof.
  intros Hall Hentry.
  destruct (tree_entry_cases To words p entry Hentry) as [Hp Hcases].
  apply elem_of_keys_of_words in Hp as (w & i & Hw & Hi & ->).
  assert (isASCII w = true) as Hasc by (by eapply (proj1 (Forall_forall _ _)) in Hall).
  split.
  - assert (w ∈ entry) as Hin; [|by intros ->; apply elem_of_nil in Hin].
    assert (w ∈ find_matches To (sort_Strings words) (ToLower To (slice_to w i))).
    { apply elem_of_find_matches. split; [apply (ascii_key To w i Hasc)|].
      by apply elem_of_sort_Strings. }
    destruct Hcases as [-> | ->]; [done|by apply nub_elem].
  - unfold Search.
    assert (ToLower To (ToLower To (slice_to w i)) = ToLower To (slice_to w i)) as ->;
      [|by rewrite Hentry].
    pose proof (isASCII_slice_to w i Hasc) as Hs.
    destruct (isASCII_lower_bytes _ Hs) as [H1 H2].
    rewrite (ToLower_ascii To (slice_to w i)) by done.
    by rewrite ToLower_ascii.
Qed.

Lemma ascii_entries_nonempty_witness :
  [ "Apple" ] ≠ []
  ∧ Search To_excerpt (NewStaticSearchTree To_excerpt ["banana"; "Apple"]).1 "app"
    = [ "Apple" ].
Proof.
  apply (ascii_entries_nonempty To_excerpt ["banana"; "Apple"] "app").
  - repeat constructor.
  - vm_compute. reflexivity.
Defined.

(** ** Queries that extend one another *)

Lemma ToLower_app_ascii To a b :
  isASCII a = true → ToLower To (a +:+ b) = ToLower To a +:+ ToLower To b.
Proof.
  intros Ha. rewrite !ToLower_Map. unfold Map.
  by rewrite runes_app_ascii, write_runes_app.
Qed.

Lemma Search_built To words q :
  lower_table_ok To →
  Search To (NewStaticSearchTree To words).1 q =
  if decide (ToLower To q ∈ all_keys To (sort_Strings words))
  then nub (find_matches To (sort_Strings words) (ToLower To q))
  else [].
Proof.
  intros Hok. unfold Search. rewrite tree_entry by done. by case_decide.
Qed.

Lemma elem_of_Search_built To words q w :
  lower_table_ok To → q ≠ "" →
  w ∈ Search To (NewStaticSearchTree To words).1 q
  ↔ w ∈ words ∧ HasPrefix (ToLower To w) (ToLower To q) = true.
Proof.
  intros Hok Hq. rewrite Search_built by done. split.
  - case_decide; [|by intros ?%elem_of_nil].
    rewrite nub_elem, elem_of_find_matches, elem_of_sort_Strings. tauto.
  - intros [Hw Hpre]. rewrite decide_True.
    + rewrite nub_elem, elem_of_find_matches, elem_of_sort_Strings. tauto.
    + apply elem_of_all_keys. exists w.
      split; [by apply elem_of_sort_Strings | by apply prefix_is_key].
Qed.

(** A longer query narrows the result: when the lower case of [q1] starts
    the lower case of [q2] (as it does when [q2] starts with an ASCII [q1]),
    the result for [q2] is a subsequence of the result for [q1]. *)
Theorem Search_refines To words q1 q2 :
  lower_table_ok To → q1 ≠ "" →
  HasPrefix (ToLower To q2) (ToLower To q1) = true
  ∨ (isASCII q1 = true ∧ HasPrefix q2 q1 = true) →
  Search To (NewStaticSearchTree To words).1 q2
  `sublist_of` Search To (NewStaticSearchTree To words).1 q1.
Proof.
  intros Hok Hq1 Hpre.
  assert (HasPrefix (ToLower To q2) (ToLower To q1) = true) as Hlow.
  { destruct Hpre as [|[Ha [t ->]%HasPrefix_app]]; [done|].
    rewrite ToLower_app_ascii by done. apply HasPrefix_app. eauto. }
  rewrite !Search_built by done.
  destruct (decide (ToLower To q2 ∈ _)) as [_|_]; [|apply sublist_nil_l].
  destruct (find_matches To (sort_Strings words) (ToLower To q2)) as [|v l] eqn:Hm;
    [apply sublist_nil_l|].
  assert (v ∈ find_matches To (sort_Strings words) (ToLower To q2)) as Hv
    by (rewrite Hm; left).
  apply elem_of_find_matches in Hv as [Hv1 Hv2].
  rewrite decide_True.
  - rewrite <- Hm. unfold find_matches. rewrite !nub_filter.
    apply filter_sublist_impl. intros x Hx. by eapply HasPrefix_trans.
  - apply elem_of_all_keys. exists v. split; [done|].
    apply prefix_is_key; [done..|]. by eapply HasPrefix_trans.
Qed.

Lemma Search_refines_witness :
  Search To_excerpt (NewStaticSearchTree To_excerpt ["apple"; "app"; "Apricot"]).1 "APPL"
  `sublist_of`
  Search To_excerpt (NewStaticSearchTree To_excerpt ["apple"; "app"; "Apricot"]).1 "AP".
Proof.
  apply Search_refines; [apply To_excerpt_ok|done|].
  right. split; vm_compute; reflexivity.
Defined.

(** Building from the concatenation of two lists: a word is found exactly
    when the index of one of the two lists finds it. *)
Theorem Search_of_union To words1 words2 q w :
  lower_table_ok To → q ≠ "" →
  w ∈ Search To (NewStaticSearchTree To (words1 ++ words2)).1 q
  ↔ w ∈ Search To (NewStaticSearchTree To words1).1 q
    ∨ w ∈ Search To (NewStaticSearchTree To words2).1 q.
Proof.
  intros Hok Hq. rewrite !elem_of_Search_built, elem_of_app by done. tauto.
Qed.

Lemma Search_of_union_witness :
  "apple" ∈ Search To_excerpt (NewStaticSearchTree To_excerpt (["app"] ++ ["apple"])).1 "ap"
  ↔ "apple" ∈ Search To_excerpt (NewStaticSearchTree To_excerpt ["app"]).1 "ap"
    ∨ "apple" ∈ Search To_excerpt (NewStaticSearchTree To_excerpt ["apple"]).1 "ap".
Proof. apply Search_of_union; [apply To_excerpt_ok|done]. Defined.

(** ** Two limits for one query *)

(** Raising the limit extends the result: for [L1 <= L2] the result for
    [L1] starts the result for [L2], which starts the result of [Search]. *)
Theorem SearchWithLimit_monotone To sst q L1 L2 r1 r2 :
  SearchWithLimit To sst q L1 = Some r1 →
  SearchWithLimit To sst q L2 = Some r2 →
  L1 ≤ L2 →
  r1 `prefix_of` r2 ∧ r2 `prefix_of` Search To sst q.
Proof.
  intros H1 H2 Hle.
  destruct (SearchWithLimit_cases To sst q L1) as [[Hn1 E1]|[[Hn1 E1]|[Hn1 E1]]];
  destruct (SearchWithLimit_cases To sst q L2) as [[Hn2 E2]|[[Hn2 E2]|[Hn2 E2]]];
    rewrite E1 in H1; rewrite E2 in H2; simplify_eq; try lia.
  - done.
  - split; [apply prefix_take|done].
  - split; [|apply prefix_take].
    replace (take (Z.to_nat L1) (Search To sst q))
      with (take (Z.to_nat L1) (take (Z.to_nat L2) (Search To sst q)))
      by (rewrite take_take; f_equal; lia).
    apply prefix_take.
Qed.

Lemma SearchWithLimit_monotone_witness :
  let sst := (NewStaticSearchTree To_excerpt ["app"; "apple"; "apply"]).1 in
  [ "app" ] `prefix_of` [ "app"; "apple" ]
  ∧ [ "app"; "apple" ] `prefix_of` Search To_excerpt sst "app".
Proof.
  intros sst. apply (SearchWithLimit_monotone To_excerpt sst "app" 1 2);
    [vm_compute; reflexivity..|lia].
Defined.

(** ** [build] on an index that holds entries *)

Lemma elem_of_mergeDeduplicate x slice1 slice2 :
  x ∈ mergeDeduplicate slice1 slice2 ↔ x ∈ slice1 ∨ x ∈ slice2.
Proof.
  rewrite mergeDeduplicate_eq, elem_of_app, nub_elem, dedup_from_elem.
  rewrite elem_of_list_to_set. destruct (decide (x ∈ slice1)); tauto.
Qed.

Lemma foldl_visit_grows To ws K t p e :
  t !! p = Some e →
  ∃ e', foldl (visit To ws) t K !! p = Some e'
        ∧ (∀ w, w ∈ e → w ∈ e') ∧ (p ∉ K → e' = e).
Proof.
  revert t e. induction K as [|k K IH]; intros t e He; [by exists e|].
  simpl.
  assert (∃ e1, visit To ws t k !! p = Some e1
                ∧ (∀ w, w ∈ e → w ∈ e1) ∧ (k ≠ p → e1 = e))
    as (e1 & He1 & Hsub1 & Hsame1).
  { unfold visit. rewrite store_lookup. destruct (decide (k = p)) as [->|Hne].
    - rewrite He. eexists. split; [done|]. split; [|done].
      intros w Hw. apply elem_of_mergeDeduplicate. by left.
    - exists e. by rewrite He. }
  destruct (IH _ _ He1) as (e' & He' & Hsub & Hsame).
  exists e'. split; [done|]. split; [auto|].
  intros [Hk HK]%not_elem_of_cons. rewrite Hsame by done. apply Hsame1. congruence.
Qed.

(** [build] on an index that already holds entries removes nothing: a key
    stays, the words of its entry stay, and the entry of a key that is no
    lower-cased prefix of a new word is left as it was. *)
Theorem build_only_adds To sst words p entry :
  tree sst !! p = Some entry →
  ∃ entry', tree (build To sst words).1 !! p = Some entry'
            ∧ (∀ w, w ∈ entry → w ∈ entry')
            ∧ ((∀ w i, w ∈ words → (1 ≤ i ≤ String.length w)%nat
                       → p ≠ ToLower To (slice_to w i))
               → entry' = entry).
Proof.
  intros He. unfold build. simpl. rewrite build_words_visit.
  destruct (foldl_visit_grows To (sort_Strings words)
              (all_keys To (sort_Strings words)) _ _ _ He)
    as (e' & He' & Hsub & Hsame).
  exists e'. split; [done|]. split; [done|].
  intros Hfresh. apply Hsame. rewrite elem_of_keys_of_words.
  intros (w & i & Hw & Hi & ->). by eapply Hfresh.
Qed.

Lemma build_only_adds_witness :
  ∃ entry', tree (build To_excerpt {| tree := {[ "a" := ["avocado"] ]} |} ["Apple"]).1
              !! "a" = Some entry'
            ∧ (∀ w, w ∈ ["avocado"] → w ∈ entry')
            ∧ ((∀ w i, w ∈ ["Apple"] → (1 ≤ i ≤ String.length w)%nat
                       → "a" ≠ ToLower To_excerpt (slice_to w i))
               → entry' = ["avocado"]).
Proof. apply build_only_adds. vm_compute. reflexivity. Defined.

(** ** The content of an entry *)

(** The entry stored for a key holds exactly the input words whose lower
    case starts with the key, for every case table. *)
Theorem entry_exact To words p entry w :
  tree (NewStaticSearchTree To words).1 !! p = Some entry →
  w ∈ entry ↔ w ∈ words ∧ HasPrefix (ToLower To w) p = true.
Proof.
  intros [_ Hcases]%tree_entry_cases.
  destruct Hcases as [-> | ->];
    rewrite ?nub_elem, elem_of_find_matches, elem_of_sort_Strings; tauto.
Qed.

Lemma entry_exact_witness :
  "Apple" ∈ ["Apple"; "apricot"]
  ↔ "Apple" ∈ ["apricot"; "banana"; "Apple"]
    ∧ HasPrefix (ToLower To_excerpt "Apple") "a" = true.
Proof.
  apply (entry_exact To_excerpt ["apricot"; "banana"; "Apple"] "a").
  vm_compute. reflexivity.
Defined.

(** ** The keys as a tree, and their number *)

Lemma slice_to_slice_to s i j :
  (j ≤ i)%nat → slice_to (slice_to s i) j = slice_to s j.
Proof.
  revert s i. induction j as [|j IH]; intros [|c t] [|i] Hji; simpl; try done.
  - lia.
  - rewrite IH; [done|lia].
Qed.

(** When all input words are ASCII, the keys form a tree: every non-empty
    prefix of a key is a key. *)
Theorem keys_prefix_closed To words p j :
  Forall (λ w, isASCII w = true) words →
  p ∈ GetAllPrefixes (NewStaticSearchTree To words).1 →
  (1 ≤ j ≤ String.length p)%nat →
  slice_to p j ∈ GetAllPrefixes (NewStaticSearchTree To words).1.
Proof.
  intros Hall Hp Hj.
  rewrite elem_of_GetAllPrefixes, tree_is_Some, elem_of_keys_of_words in Hp |- *.
  destruct Hp as (w & i & Hw & Hi & ->). exists w, j.
  assert (isASCII w = true) as Hasc by (by eapply (proj1 (Forall_forall _ _)) in Hall).
  rewrite !(proj1 (ascii_key To w _ Hasc)) in Hj |- *.
  rewrite slice_to_length in Hj by (rewrite lower_bytes_length; lia).
  split; [done|]. split; [lia|].
  rewrite (proj1 (ascii_key To w j Hasc)). apply slice_to_slice_to. lia.
Qed.

Lemma keys_prefix_closed_witness :
  slice_to "appl" 2 ∈ GetAllPrefixes (NewStaticSearchTree To_excerpt ["Apple"; "bat"]).1.
Proof.
  apply keys_prefix_closed; [repeat constructor| |vm_compute; lia].
  apply elem_of_GetAllPrefixes. vm_compute. by eexists.
Defined.

(** More words, no fewer keys. *)
Theorem Size_monotone To words1 words2 :
  (∀ w, w ∈ words1 → w ∈ words2) →
  Size (NewStaticSearchTree To words1).1 ≤ Size (NewStaticSearchTree To words2).1.
Proof.
  intros Hsub. unfold Size. apply inj_le.
  rewrite <- !length_map_to_list, <- !(length_fmap fst).
  apply submseteq_length, NoDup_submseteq; [apply NoDup_fst_map_to_list|].
  intros p.
  assert (∀ ws, p ∈ (map_to_list (tree (NewStaticSearchTree To ws).1)).*1
                ↔ p ∈ all_keys To (sort_Strings ws)) as Hkeys.
  { intros ws. rewrite <- tree_is_Some, list_elem_of_fmap. split.
    - intros ([k v] & -> & Hkv%elem_of_map_to_list). by exists v.
    - intros [v Hv]. exists (p, v). split; [done|]. by apply elem_of_map_to_list. }
  rewrite !Hkeys, !elem_of_keys_of_words.
  intros (w & i & Hw & Hi & Hp). exists w, i. auto.
Qed.

Lemma Size_monotone_witness :
  Size (NewStaticSearchTree To_excerpt ["cat"]).1
  ≤ Size (NewStaticSearchTree To_excerpt ["car"; "cat"]).1.
Proof.
  apply Size_monotone. intros w Hw. by right.
Defined.
